(** * Reson: the live-audio pipeline and the phase reducer

    A shallow embedding of the parts of the repository that carry its
    audio duplex logic:

    - the type declarations (imported as [./types]): [IntelligencePhase],
      [IntelligenceState], [IntelligenceAction];
    - the application component: [initialIntelligenceState],
      [intelligenceReducer];
    - [services/geminiService.ts]: [createBlob], [encode], [decode],
      [decodeAudioData], [playBuffered], the [onmessage] handler of
      [connectLive], and [stopLive].

    Conventions.  A JavaScript [number] that only ever holds a finite
    value (device-clock readings, buffer durations, sample rates) is a
    rational [Q]; a number read from a [Float32Array], which may be
    [NaN] or infinite, is a [number].  The calls into the browser
    (Web Audio, typed arrays, [btoa]/[atob]) are modelled from their
    standards, next to the code that uses them. *)

From Stdlib Require Import ZArith QArith Qminmax Qround Qabs Lqa Lia.
From Stdlib Require Import String Ascii List Bool.
From stdpp Require Import base option list gmap strings.

Local Open Scope Q_scope.

(* ===================================================================== *)
(** * Part I: the embedding                                               *)
(* ===================================================================== *)

(** ** JavaScript numbers *)

(** A double as the code can observe it: not-a-number, an infinity, or a
    finite value.  Every finite value the audio path computes (a float32
    sample times [32768], a 16-bit integer divided by [32768.0]) is a
    dyadic rational that a double holds exactly, so finite arithmetic
    on [Q] loses nothing there. *)
Inductive number : Type :=
| NaN
| Infinity (negative : bool)
| Fin (q : Q).

(* ===================================================================== *)
(** ** The phase machine                                                  *)
(* ===================================================================== *)

Module Phase.

(** [export type IntelligencePhase = "idle" | ... | "error"] *)
Inductive IntelligencePhase : Type :=
| idle
| listening
| thinking
| synthesizing
| speaking
| reflecting
| generating_audio
| explaining
| error.

(** [interface IntelligenceState extends IntelligenceSignal]: the six
    fields of the signal followed by the two of the state. *)
Record IntelligenceState : Type := mkState {
  phase : IntelligencePhase;
  intensity : number;
  confidence : number;
  interruptible : bool;
  transcript : string;
  partialTranscript : string;
  synthesisProgress : number;
  lastUtteranceTs : number
}.

(** [export type IntelligenceAction]: the tagged union on [type].
    [partial?: boolean] is an optional property: [None] is [undefined]. *)
Inductive IntelligenceAction : Type :=
| SIGNAL_PHASE (payload : IntelligencePhase)
| SIGNAL_INTENSITY (payload : number)
| SIGNAL_CONFIDENCE (payload : number)
| SIGNAL_TRANSCRIPT (payload : string) (partial : option bool)
| SIGNAL_PROGRESS (payload : number)
| SIGNAL_INTERRUPT
| SIGNAL_RESET.

Definition initialIntelligenceState : IntelligenceState :=
  {| phase := idle;
     intensity := Fin 0;
     confidence := Fin 0;
     interruptible := true;
     transcript := EmptyString;
     partialTranscript := EmptyString;
     synthesisProgress := Fin 0;
     lastUtteranceTs := Fin 0 |}.

(** Truthiness of [action.partial]: [undefined] and [false] are falsy. *)
Definition truthy_flag (b : option bool) : bool :=
  match b with
  | Some true => true
  | _ => false
  end.

(** Object spread with overrides, one setter per overridden field:
    [{ ...state, phase: p }] is [set_phase p state]. *)
Definition set_phase (p : IntelligencePhase) (s : IntelligenceState) :=
  mkState p (intensity s) (confidence s) (interruptible s) (transcript s)
          (partialTranscript s) (synthesisProgress s) (lastUtteranceTs s).

Definition set_intensity (v : number) (s : IntelligenceState) :=
  mkState (phase s) v (confidence s) (interruptible s) (transcript s)
          (partialTranscript s) (synthesisProgress s) (lastUtteranceTs s).

Definition set_confidence (v : number) (s : IntelligenceState) :=
  mkState (phase s) (intensity s) v (interruptible s) (transcript s)
          (partialTranscript s) (synthesisProgress s) (lastUtteranceTs s).

Definition set_transcript (t : string) (s : IntelligenceState) :=
  mkState (phase s) (intensity s) (confidence s) (interruptible s) t
          (partialTranscript s) (synthesisProgress s) (lastUtteranceTs s).

Definition set_partialTranscript (t : string) (s : IntelligenceState) :=
  mkState (phase s) (intensity s) (confidence s) (interruptible s)
          (transcript s) t (synthesisProgress s) (lastUtteranceTs s).

Definition set_synthesisProgress (v : number) (s : IntelligenceState) :=
  mkState (phase s) (intensity s) (confidence s) (interruptible s)
          (transcript s) (partialTranscript s) v (lastUtteranceTs s).

(** [function intelligenceReducer(state, action)].  The [default] arm of
    the [switch] is unreachable for a typed action and has no case here. *)
Definition intelligenceReducer (state : IntelligenceState)
    (action : IntelligenceAction) : IntelligenceState :=
  match action with
  | SIGNAL_PHASE payload => set_phase payload state
  | SIGNAL_INTENSITY payload => set_intensity payload state
  | SIGNAL_CONFIDENCE payload => set_confidence payload state
  | SIGNAL_TRANSCRIPT payload partial =>
      if truthy_flag partial
      then set_partialTranscript payload state
      else set_partialTranscript EmptyString (set_transcript payload state)
  | SIGNAL_PROGRESS payload => set_synthesisProgress payload state
  | SIGNAL_INTERRUPT =>
      set_partialTranscript EmptyString
        (set_intensity (Fin 0) (set_phase explaining state))
  | SIGNAL_RESET => initialIntelligenceState
  end.

(** [useReducer(intelligenceReducer, initialIntelligenceState)]: the
    state after a sequence of dispatches, oldest first. *)
Definition dispatchAll (actions : list IntelligenceAction)
    (s : IntelligenceState) : IntelligenceState :=
  fold_left intelligenceReducer actions s.

(** The two fields no signal writes, at their initial values. *)
Definition constants_held (s : IntelligenceState) : Prop :=
  interruptible s = true /\ lastUtteranceTs s = Fin 0.

(** The fields of the state, and the ones a signal writes. *)
Inductive Field : Type :=
| f_phase | f_intensity | f_confidence | f_interruptible | f_transcript
| f_partialTranscript | f_synthesisProgress | f_lastUtteranceTs.

Definition writes (a : IntelligenceAction) : list Field :=
  match a with
  | SIGNAL_PHASE _ => [f_phase]
  | SIGNAL_INTENSITY _ => [f_intensity]
  | SIGNAL_CONFIDENCE _ => [f_confidence]
  | SIGNAL_TRANSCRIPT _ partial =>
      if truthy_flag partial then [f_partialTranscript]
      else [f_transcript; f_partialTranscript]
  | SIGNAL_PROGRESS _ => [f_synthesisProgress]
  | SIGNAL_INTERRUPT => [f_phase; f_intensity; f_partialTranscript]
  | SIGNAL_RESET =>
      [f_phase; f_intensity; f_confidence; f_interruptible; f_transcript;
       f_partialTranscript; f_synthesisProgress; f_lastUtteranceTs]
  end.

End Phase.

(* ===================================================================== *)
(** ** Exceptions                                                         *)
(* ===================================================================== *)

(** The exceptions the audio path can meet, by their DOM / ECMAScript
    names. *)
Inductive exn : Type :=
| RangeError
| NotSupportedError
| InvalidCharacterError
| InvalidStateError.

(** The outcome of a call that may throw (of an [async] function: a
    promise that fulfils with [Ok] or rejects with [Throw]). *)
Inductive result (A : Type) : Type :=
| Ok (a : A)
| Throw (e : exn).

Arguments Ok {A} a.
Arguments Throw {A} e.

#[global] Instance result_ret : MRet result := fun _ a => Ok a.

#[global] Instance result_bind : MBind result := fun _ _ f r =>
  match r with
  | Ok a => f a
  | Throw e => Throw e
  end.

(* ===================================================================== *)
(** ** The PCM codec ([geminiService.ts], lines 223-234 and 256-272)      *)
(* ===================================================================== *)

Module Codec.

(** *** Number conversions of ECMAScript and WebIDL *)

(** [truncate(x)]: the integral part, rounding toward zero. *)
Definition truncate (q : Q) : Z := Z.quot (Qnum q) (Z.pos (Qden q)).

(** [ToInt16] of ECMAScript, the conversion a store into an
    [Int16Array] applies: [NaN] and the infinities give [0]; a finite
    value is truncated, reduced modulo [2^16] and read as two's
    complement. *)
Definition wrap16 (z : Z) : Z :=
  let m := (z mod 65536)%Z in
  if Z_lt_dec m 32768 then m else (m - 65536)%Z.

Definition ToInt16 (x : number) : Z :=
  match x with
  | Fin q => wrap16 (truncate q)
  | _ => 0%Z
  end.

(** The conversion to WebIDL [unsigned long] (no [EnforceRange]), which
    [createBuffer] applies to its channel count and its length. *)
Definition ToUint32 (x : number) : Z :=
  match x with
  | Fin q => (truncate q mod 4294967296)%Z
  | _ => 0%Z
  end.

(** Saturation to the 16-bit range: what a clamping encoder would
    store.  The code has no such step; the definition is the yardstick
    of the comparison with [ToInt16]. *)
Definition clamp16 (z : Z) : Z := Z.max (-32768) (Z.min 32767 z).

(** [x * y] on doubles, for the products the codec forms (a zero times
    an infinity is [NaN]; signed zeros are not told apart, no consumer
    here observes the sign of a zero). *)
Definition number_mul (x y : number) : number :=
  match x, y with
  | NaN, _ | _, NaN => NaN
  | Infinity a, Infinity b => Infinity (xorb a b)
  | Infinity a, Fin q | Fin q, Infinity a =>
      match Qcompare q 0 with
      | Eq => NaN
      | Lt => Infinity (negb a)
      | Gt => Infinity a
      end
  | Fin p, Fin q => Fin (p * q)
  end.

(** [v / 32768.0] where [v] is an element read from an [Int16Array]:
    an index out of range reads [undefined], and [undefined / 32768.0]
    is [NaN]. *)
Definition div32768 (v : option Z) : number :=
  match v with
  | Some k => Fin (inject_Z k / 32768)
  | None => NaN
  end.

(** *** Typed-array views *)

(** [new Uint8Array(int16.buffer)]: the two bytes of each element, low
    byte first (the byte order of every platform the code runs on; the
    decoder reads with the same view). *)
Definition bytes_of_int16 (k : Z) : list Z :=
  let u := (k mod 65536)%Z in [(u mod 256)%Z; (u / 256)%Z].

Definition Uint8Array_of_Int16Array (int16 : list Z) : list Z :=
  flat_map bytes_of_int16 int16.

Fixpoint int16_pairs (bytes : list Z) : list Z :=
  match bytes with
  | lo :: hi :: rest => wrap16 (lo + 256 * hi)%Z :: int16_pairs rest
  | _ => []
  end.

(** [new Int16Array(data.buffer)] for a [Uint8Array] that owns its
    buffer (as the one [decode] returns does): a [RangeError] when the
    byte length is not a multiple of the element size [2]. *)
Definition Int16Array_of_buffer (bytes : list Z) : result (list Z) :=
  if Nat.even (length bytes) then Ok (int16_pairs bytes) else Throw RangeError.

(** *** [btoa] and [atob] *)

(** A JavaScript string whose code units are all below [256] is a
    [string]; [charCodeAt] and [String.fromCharCode] on it: *)
Definition charCodeAt (c : ascii) : Z := Z.of_N (N_of_ascii c).
Definition fromCharCode (b : Z) : ascii := ascii_of_N (Z.to_N b).

Definition b64_alphabet : string :=
  "ABCDEFGHIJKLMNOPQRSTUVWXYZabcdefghijklmnopqrstuvwxyz0123456789+/".

Definition pad : ascii := "="%char.

Definition b64_char (n : Z) : ascii :=
  match String.get (Z.to_nat n) b64_alphabet with
  | Some c => c
  | None => pad
  end.

Definition b64_value (c : ascii) : option Z :=
  let n := charCodeAt c in
  if (65 <=? n)%Z && (n <=? 90)%Z then Some (n - 65)%Z
  else if (97 <=? n)%Z && (n <=? 122)%Z then Some (n - 71)%Z
  else if (48 <=? n)%Z && (n <=? 57)%Z then Some (n + 4)%Z
  else if (n =? 43)%Z then Some 62%Z
  else if (n =? 47)%Z then Some 63%Z
  else None.

(** [btoa] (HTML, forgiving-base64 encode, RFC 4648 section 4) on the
    code units of its argument. *)
Fixpoint btoa_groups (bs : list Z) : list ascii :=
  match bs with
  | [] => []
  | [a] =>
      [b64_char (a / 4); b64_char (a mod 4 * 16); pad; pad]
  | [a; b] =>
      [b64_char (a / 4); b64_char (a mod 4 * 16 + b / 16);
       b64_char (b mod 16 * 4); pad]
  | a :: b :: c :: rest =>
      b64_char (a / 4) :: b64_char (a mod 4 * 16 + b / 16)
      :: b64_char (b mod 16 * 4 + c / 64) :: b64_char (c mod 64)
      :: btoa_groups rest
  end%Z.

(** The 6-bit groups behind the characters [btoa_groups] writes, and
    the padding it closes with: the two parts of its output. *)
Fixpoint sextets (bs : list Z) : list Z :=
  match bs with
  | [] => []
  | [a] => [a / 4; a mod 4 * 16]
  | [a; b] => [a / 4; a mod 4 * 16 + b / 16; b mod 16 * 4]
  | a :: b :: c :: rest =>
      a / 4 :: a mod 4 * 16 + b / 16 :: b mod 16 * 4 + c / 64 :: c mod 64
      :: sextets rest
  end%Z.

Fixpoint padding (bs : list Z) : list ascii :=
  match bs with
  | [] => []
  | [a] => [pad; pad]
  | [a; b] => [pad]
  | a :: b :: c :: rest => padding rest
  end.

Definition btoa (s : string) : string :=
  string_of_list_ascii (btoa_groups (map charCodeAt (list_ascii_of_string s))).

Definition is_ascii_whitespace (c : ascii) : bool :=
  let n := charCodeAt c in
  ((n =? 9) || (n =? 10) || (n =? 12) || (n =? 13) || (n =? 32))%Z.

(** Step 2 of forgiving-base64 decode: when the length is a multiple of
    four, one or two trailing [=] are removed. *)
Definition strip_padding (l : list ascii) : list ascii :=
  if (length l mod 4 =? 0)%nat then
    match rev l with
    | p1 :: p2 :: r =>
        if Ascii.eqb p1 pad then
          if Ascii.eqb p2 pad then rev r else rev (p2 :: r)
        else l
    | [p1] => if Ascii.eqb p1 pad then [] else l
    | [] => l
    end
  else l.

Fixpoint atob_groups (vs : list Z) : list Z :=
  match vs with
  | s1 :: s2 :: s3 :: s4 :: rest =>
      (s1 * 4 + s2 / 16) :: (s2 mod 16 * 16 + s3 / 4)
      :: (s3 mod 4 * 64 + s4) :: atob_groups rest
  | [s1; s2; s3] => [s1 * 4 + s2 / 16; s2 mod 16 * 16 + s3 / 4]
  | [s1; s2] => [s1 * 4 + s2 / 16]
  | _ => []
  end%Z.

(** [atob] (HTML, forgiving-base64 decode): whitespace is dropped,
    padding stripped, a length of [1] modulo four or a character outside
    the alphabet is an [InvalidCharacterError]. *)
Definition atob (s : string) : result string :=
  let l := strip_padding
             (filter (fun c => negb (is_ascii_whitespace c))
                     (list_ascii_of_string s)) in
  if (length l mod 4 =? 1)%nat then Throw InvalidCharacterError
  else
    match mapM b64_value l with
    | Some vs => Ok (string_of_list_ascii (map fromCharCode (atob_groups vs)))
    | None => Throw InvalidCharacterError
    end.

(** Ranges of the cells of the three arrays. *)
Definition is_byte (b : Z) : Prop := (0 <= b < 256)%Z.
Definition is_sextet (v : Z) : Prop := (0 <= v < 64)%Z.
Definition is_int16 (k : Z) : Prop := (-32768 <= k <= 32767)%Z.

(** The check of one entry of the alphabet: [b64_value] inverts
    [b64_char], and the character is neither whitespace nor padding. *)
Definition alphabet_ok (k : nat) : bool :=
  match b64_value (b64_char (Z.of_nat k)) with
  | Some v => (v =? Z.of_nat k)%Z
  | None => false
  end
  && negb (is_ascii_whitespace (b64_char (Z.of_nat k)))
  && negb (Ascii.eqb (b64_char (Z.of_nat k)) pad).

End Codec.

(* ===================================================================== *)
(** ** Web Audio objects                                                  *)
(* ===================================================================== *)

Module WebAudio.

Import Codec.

(** An [AudioContext] as the service observes it: the device clock
    [currentTime] (seconds) and the implementation's limits for
    [createBuffer] (the standard asks for at least 32 channels and the
    rates 8000 to 96000). *)
Record AudioContext : Type := mkContext {
  currentTime : Q;
  maxChannels : nat;
  minSampleRate : Q;
  maxSampleRate : Q
}.

(** An [AudioBuffer]: one [Float32Array] of [buf_length] frames per
    channel. *)
Record AudioBuffer : Type := mkBuffer {
  numberOfChannels : nat;
  buf_length : nat;
  sampleRate : Q;
  channels : list (list number)
}.

(** [buffer.duration]: length over rate, in seconds. *)
Definition duration (b : AudioBuffer) : Q :=
  inject_Z (Z.of_nat (buf_length b)) / sampleRate b.

(** [ctx.createBuffer(numberOfChannels, length, sampleRate)]: a
    [NotSupportedError] when an argument is zero or outside its nominal
    range; otherwise a silent buffer. *)
Definition createBuffer (ctx : AudioContext) (nChannels : nat)
    (len : number) (rate : Q) : result AudioBuffer :=
  let n := Z.to_nat (ToUint32 len) in
  if (nChannels =? 0)%nat || (maxChannels ctx <? nChannels)%nat
     || (n =? 0)%nat
     || negb (Qle_bool (minSampleRate ctx) rate)
     || negb (Qle_bool rate (maxSampleRate ctx))
  then Throw NotSupportedError
  else Ok (mkBuffer nChannels n rate (replicate nChannels (replicate n (Fin 0)))).

End WebAudio.

(* ===================================================================== *)
(** ** [GeminiService]: the codec methods                                 *)
(* ===================================================================== *)

Module Pcm.

Import Codec WebAudio.

(** The object [createBlob] returns. *)
Record Blob : Type := mkBlob {
  data : string;
  mimeType : string
}.

(** [private encode(bytes: Uint8Array)]: one character per byte, then
    [btoa]. *)
Definition encode (bytes : list Z) : string :=
  btoa (string_of_list_ascii (map fromCharCode bytes)).

(** [private createBlob(data: Float32Array)]: every element is stored
    into an [Int16Array] as [data[i] * 32768], and the bytes of that
    array are encoded. *)
Definition quantize (x : number) : Z := ToInt16 (number_mul x (Fin 32768)).

Definition createBlob (samples : list number) : Blob :=
  let int16 := map quantize samples in
  mkBlob (encode (Uint8Array_of_Int16Array int16)) "audio/pcm;rate=16000".

(** [decode(b64: string): Uint8Array] *)
Definition decode (b64 : string) : result (list Z) :=
  s ← atob b64;
  mret (map charCodeAt (list_ascii_of_string s)).

(** [int16.length / numChannels] as a JavaScript number. *)
Definition frames_of (len numChannels : nat) : number :=
  match numChannels with
  | O => match len with O => NaN | S _ => Infinity false end
  | S _ => Fin (Z.of_nat len # Pos.of_nat numChannels)
  end.

(** The values [i = 0, 1, ...] with [i < frames]: the trips of the inner
    loop.  Frames that are not finite never reach the loop, since
    [createBuffer] refuses the length they convert to. *)
Definition trips (frames : number) : list nat :=
  match frames with
  | Fin q => seq 0 (Z.to_nat (Qceiling q))
  | _ => []
  end.

(** The inner loop on one channel [d = buffer.getChannelData(c)]:
    [d[i] = int16[i * numChannels + c] / 32768.0].  A store past the end
    of a [Float32Array] is ignored, and so is one by [<[i:=_]>]. *)
Definition fill_channel (int16 : list Z) (numChannels : nat)
    (frames : number) (c : nat) (d : list number) : list number :=
  fold_left
    (fun d i => <[i := div32768 (int16 !! (i * numChannels + c)%nat)]> d)
    (trips frames) d.

(** [async decodeAudioData(data, ctx, sampleRate, numChannels)] *)
Definition decodeAudioData (bytes : list Z) (ctx : AudioContext)
    (rate : Q) (numChannels : nat) : result AudioBuffer :=
  int16 ← Int16Array_of_buffer bytes;
  let frames := frames_of (length int16) numChannels in
  buffer ← createBuffer ctx numChannels frames rate;
  mret (fold_left
          (fun buf c =>
             mkBuffer (numberOfChannels buf) (buf_length buf) (sampleRate buf)
               (alter (fill_channel int16 numChannels frames c) c
                      (channels buf)))
          (seq 0 numChannels) buffer).

End Pcm.

(* ===================================================================== *)
(** ** [GeminiService]: playback scheduling and teardown                  *)
(* ===================================================================== *)

Module Service.

Import Codec WebAudio Pcm.

(** Objects the service holds by reference are named by numbers: the
    [AudioBufferSourceNode]s in creation order, the tracks of the
    microphone stream. *)
Definition SourceId := nat.
Definition TrackId := nat.

(** [sessionPromise], as [await] finds it once it has settled. *)
Inductive SessionPromise : Type :=
| Fulfilled
| Rejected (e : exn).

Inductive Port : Type := Input | Output.

(** The calls into the platform that the service makes and a test can
    observe. *)
Inductive Call : Type :=
| SourceStart (source : SourceId) (when : Q)
| SourceStop (source : SourceId)
| SessionClose
| TrackStop (track : TrackId)
| ContextClose (port : Port)
| OnMessage.

(** What the platform answers to a release call: [None] when the call
    returns, [Some e] when it throws [e]. *)
Definition Platform := Call -> option exn.

(** The fields of [class GeminiService], and two ghost fields: the
    number of source nodes created so far (the identity of the next
    [createBufferSource()]) and the calls made, latest first. *)
Record GeminiService : Type := mkService {
  activeSession : option SessionPromise;
  inputAudioContext : option AudioContext;
  outputAudioContext : option AudioContext;
  micStream : option (list TrackId);
  scheduledTime : Q;
  activeAudioSources : list SourceId;
  created : nat;
  trace : list Call
}.

(** [new GeminiService()] *)
Definition newService : GeminiService :=
  mkService None None None None 0 [] 0 [].

Definition set_activeSession v (s : GeminiService) :=
  mkService v (inputAudioContext s) (outputAudioContext s) (micStream s)
            (scheduledTime s) (activeAudioSources s) (created s) (trace s).

Definition set_inputAudioContext v (s : GeminiService) :=
  mkService (activeSession s) v (outputAudioContext s) (micStream s)
            (scheduledTime s) (activeAudioSources s) (created s) (trace s).

Definition set_outputAudioContext v (s : GeminiService) :=
  mkService (activeSession s) (inputAudioContext s) v (micStream s)
            (scheduledTime s) (activeAudioSources s) (created s) (trace s).

Definition set_micStream v (s : GeminiService) :=
  mkService (activeSession s) (inputAudioContext s) (outputAudioContext s) v
            (scheduledTime s) (activeAudioSources s) (created s) (trace s).

Definition set_scheduledTime v (s : GeminiService) :=
  mkService (activeSession s) (inputAudioContext s) (outputAudioContext s)
            (micStream s) v (activeAudioSources s) (created s) (trace s).

Definition set_activeAudioSources v (s : GeminiService) :=
  mkService (activeSession s) (inputAudioContext s) (outputAudioContext s)
            (micStream s) (scheduledTime s) v (created s) (trace s).

Definition set_created v (s : GeminiService) :=
  mkService (activeSession s) (inputAudioContext s) (outputAudioContext s)
            (micStream s) (scheduledTime s) (activeAudioSources s) v (trace s).

Definition call (c : Call) (s : GeminiService) :=
  mkService (activeSession s) (inputAudioContext s) (outputAudioContext s)
            (micStream s) (scheduledTime s) (activeAudioSources s) (created s)
            (c :: trace s).

(** A JavaScript [Set] of objects, in insertion order. *)
Definition set_add (x : SourceId) (l : list SourceId) : list SourceId :=
  if bool_decide (x ∈ l) then l else l ++ [x].

Definition set_delete (x : SourceId) (l : list SourceId) : list SourceId :=
  filter (fun y => y ≠ x) l.

(** The device clock moves on by [dt] seconds. *)
Definition advance (dt : Q) (s : GeminiService) : GeminiService :=
  match outputAudioContext s with
  | Some ctx =>
      set_outputAudioContext
        (Some (mkContext (currentTime ctx + dt) (maxChannels ctx)
                         (minSampleRate ctx) (maxSampleRate ctx))) s
  | None => s
  end.

(** [connectLive], once the microphone and the two contexts exist
    (lines 164-167 and 208). *)
Definition connectLive (stream : list TrackId) (ctxIn ctxOut : AudioContext)
    (session : SessionPromise) (s : GeminiService) : GeminiService :=
  set_activeSession (Some session)
    (set_scheduledTime (currentTime ctxOut)
       (set_outputAudioContext (Some ctxOut)
          (set_inputAudioContext (Some ctxIn)
             (set_micStream (Some stream) s)))).

(** [private playBuffered(buffer: AudioBuffer)] *)
Definition playBuffered (buffer : AudioBuffer) (s : GeminiService)
    : GeminiService :=
  match outputAudioContext s with
  | None => s
  | Some ctx =>
      let source := created s in
      let s := set_created (S source) s in
      let s := set_scheduledTime (Qmax (scheduledTime s) (currentTime ctx)) s in
      let s := call (SourceStart source (scheduledTime s)) s in
      let s := set_scheduledTime (scheduledTime s + duration buffer) s in
      set_activeAudioSources (set_add source (activeAudioSources s)) s
  end.

(** [source.onended = () => this.activeAudioSources.delete(source)] *)
Definition onended (source : SourceId) (s : GeminiService) : GeminiService :=
  set_activeAudioSources (set_delete source (activeAudioSources s)) s.

(** [activeAudioSources.forEach(s => { try { s.stop(); } catch(e) {} })]:
    every call is made, whatever the earlier ones answered. *)
Definition stopSources (p : Platform) (s : GeminiService) : GeminiService :=
  fold_left (fun s src => call (SourceStop src) s) (activeAudioSources s) s.

(** [x || 0] on a number that is not [NaN]. *)
Definition or_zero (x : Q) : Q := if Qeq_bool x 0 then 0 else x.

(** The [interrupted] arm of [onmessage] (lines 186-190). *)
Definition flush (p : Platform) (s : GeminiService) : GeminiService :=
  let s := stopSources p s in
  let s := set_activeAudioSources [] s in
  set_scheduledTime
    (match outputAudioContext s with
     | Some ctx => or_zero (currentTime ctx)
     | None => 0
     end) s.

(** The parts of a [LiveServerMessage] the handler reads:
    [serverContent?.interrupted] and
    [serverContent?.modelTurn?.parts?.[0]?.inlineData?.data]. *)
Record LiveServerMessage : Type := mkMessage {
  interrupted : bool;
  base64Audio : option string
}.

(** Truthiness of an optional string: [undefined] and [""] are falsy. *)
Definition truthy_string (o : option string) : option string :=
  match o with
  | Some EmptyString => None
  | other => other
  end.

(** [onmessage: async (message) => ...] (lines 185-197).  [dt] is the
    time the device clock moves while the handler awaits the decoder.
    A rejected decode ends the handler there: nothing is scheduled and
    the caller's [onMessage] is not reached. *)
Definition onmessage (p : Platform) (dt : Q) (message : LiveServerMessage)
    (s : GeminiService) : GeminiService * result unit :=
  let s := if interrupted message then flush p s else s in
  match truthy_string (base64Audio message), outputAudioContext s with
  | Some b64, Some ctx =>
      match bytes ← decode b64; decodeAudioData bytes ctx 24000 1 with
      | Ok buffer => (call OnMessage (playBuffered buffer (advance dt s)), Ok tt)
      | Throw e => (s, Throw e)
      end
  | _, _ => (call OnMessage s, Ok tt)
  end.

(** [micStream.getTracks().forEach(t => t.stop())]: no handler around
    the call, so the first track whose [stop] throws ends the loop. *)
Fixpoint stopTracks (p : Platform) (tracks : list TrackId) (s : GeminiService)
    : GeminiService * result unit :=
  match tracks with
  | [] => (s, Ok tt)
  | t :: rest =>
      let s := call (TrackStop t) s in
      match p (TrackStop t) with
      | Some e => (s, Throw e)
      | None => stopTracks p rest s
      end
  end.

(** Line 237: the channel close, inside [try]/[catch].  [awaited] is
    the promise the call read from [activeSession] before it suspended
    on [await]; the rest runs when it resumes. *)
Definition closeSession (awaited : option SessionPromise) (s : GeminiService)
    : GeminiService :=
  match awaited with
  | Some Fulfilled => set_activeSession None (call SessionClose s)
  | Some (Rejected _) => set_activeSession None s
  | None => s
  end.

(** Lines 241 and 242: [if (ctx) { ctx.close(); ctx = null; }] *)
Definition closeContext (p : Platform) (port : Port) (s : GeminiService)
    : GeminiService * result unit :=
  let field := match port with
               | Input => inputAudioContext s
               | Output => outputAudioContext s
               end in
  match field with
  | None => (s, Ok tt)
  | Some _ =>
      let s := call (ContextClose port) s in
      match p (ContextClose port) with
      | Some e => (s, Throw e)
      | None =>
          (match port with
           | Input => set_inputAudioContext None s
           | Output => set_outputAudioContext None s
           end, Ok tt)
      end
  end.

(** Sequencing of steps that may throw: a throw ends the function with
    the state reached so far. *)
Definition andThen (r : GeminiService * result unit)
    (k : GeminiService -> GeminiService * result unit)
    : GeminiService * result unit :=
  match r with
  | (s, Ok _) => k s
  | (s, Throw e) => (s, Throw e)
  end.

(** [async stopLive()] (lines 236-243), from the point where it resumes
    after the [await] of line 237. *)
Definition stopLive_resume (p : Platform) (awaited : option SessionPromise)
    (s : GeminiService) : GeminiService * result unit :=
  let s := closeSession awaited s in
  andThen
    (match micStream s with
     | Some tracks =>
         andThen (stopTracks p tracks s) (fun s => (set_micStream None s, Ok tt))
     | None => (s, Ok tt)
     end)
    (fun s =>
       let s := stopSources p s in
       let s := set_activeAudioSources [] s in
       andThen (closeContext p Input s) (closeContext p Output)).

(** [async stopLive()] with nothing else running during its [await]. *)
Definition stopLive (p : Platform) (s : GeminiService)
    : GeminiService * result unit :=
  stopLive_resume p (activeSession s) s.

(** The release calls a complete teardown of [s] makes, latest first:
    the close of the channel if the session promise fulfilled, the stop
    of every microphone track, the stop of every active source, the
    close of the input context and the close of the output context. *)
Definition teardownCalls (s : GeminiService) : list Call :=
  match outputAudioContext s with Some _ => [ContextClose Output] | None => [] end
  ++ match inputAudioContext s with Some _ => [ContextClose Input] | None => [] end
  ++ rev (map SourceStop (activeAudioSources s))
  ++ rev (map TrackStop (default [] (micStream s)))
  ++ match activeSession s with Some Fulfilled => [SessionClose] | _ => [] end.

(** Everything the session held has been let go. *)
Definition released (s : GeminiService) : Prop :=
  activeSession s = None /\ micStream s = None /\
  activeAudioSources s = [] /\
  inputAudioContext s = None /\ outputAudioContext s = None.

(** *** The scheduler as a machine *)

(** The operations of the playback scheduler, and time passing. *)
Inductive Op : Type :=
| Schedule (buffer : AudioBuffer)
| Flush
| Tick (dt : Q).

Definition step (p : Platform) (s : GeminiService) (op : Op) : GeminiService :=
  match op with
  | Schedule buffer => playBuffered buffer s
  | Flush => flush p s
  | Tick dt => advance dt s
  end.

Definition run (p : Platform) (ops : list Op) (s : GeminiService)
    : GeminiService :=
  fold_left (step p) ops s.

(** A tick is well-formed when the clock does not run backwards. *)
Definition clock_forward (op : Op) : Prop :=
  match op with
  | Tick dt => 0 <= dt
  | _ => True
  end.

(** The device clock of a state, when it has an output context. *)
Definition now (s : GeminiService) : option Q :=
  currentTime <$> outputAudioContext s.

(** The start time of the latest scheduled source. *)
Definition lastStart (s : GeminiService) : option Q :=
  match trace s with
  | SourceStart _ t :: _ => Some t
  | _ => None
  end.

(** The [playBuffered] calls of a run, for an observer: the clock
    reading at the call, the start time handed to [source.start], and
    the duration of the buffer. *)
Record Played : Type := mkPlayed {
  calledAt : Q;
  startedAt : Q;
  lasts : Q
}.

(** A sequence of [playBuffered] calls and nothing else in between but
    time: each call comes [dt] seconds after the one before.  A call
    that starts nothing (no output context) leaves no record. *)
Fixpoint playLog (calls : list (Q * AudioBuffer)) (s : GeminiService)
    : list Played :=
  match calls with
  | [] => []
  | (dt, buffer) :: rest =>
      let s1 := advance dt s in
      let s2 := playBuffered buffer s1 in
      match now s1, lastStart s2 with
      | Some n, Some t => mkPlayed n t (duration buffer) :: playLog rest s2
      | _, _ => playLog rest s2
      end
  end.

End Service.

(* ===================================================================== *)
(** ** A small live session, for the examples                             *)
(* ===================================================================== *)

Module Scenario.

Import WebAudio Service.

(** A context at time zero with the limits the standard asks for. *)
Definition ctx0 : AudioContext := mkContext 0 32 8000 96000.

(** Two silent frames at 24 kHz. *)
Definition tiny : AudioBuffer := mkBuffer 1 2 24000 [[Fin 0; Fin 0]].

(** A platform on which no call throws. *)
Definition quiet : Platform := fun _ => None.

(** A platform on which stopping a microphone track throws. *)
Definition stuckTrack : Platform := fun c =>
  match c with
  | TrackStop _ => Some InvalidStateError
  | _ => None
  end.

(** The service right after [connectLive], one microphone track. *)
Definition live0 : GeminiService :=
  connectLive [0%nat] ctx0 ctx0 Fulfilled newService.

(** The same with two buffers scheduled and still playing. *)
Definition live2 : GeminiService :=
  playBuffered tiny (playBuffered tiny live0).

End Scenario.

(* ===================================================================== *)
(** ** [GeminiService]: the one-shot player and the life of a service     *)
(* ===================================================================== *)

Module Session.

Import Codec WebAudio Pcm Service.

(** [interface AudioSegment].  [voice] is declared a [VoiceRole]; the
    segments come out of [JSON.parse], so at run time it is a string,
    and [speakMultiVoiceSegments] tests it. *)
Record AudioSegment : Type := mkSegment {
  seg_id : string;
  text : string;
  voice : string;
  chapterId : string
}.

(** [speakMultiVoiceSegments] (lines 122-160), as far as the service
    state goes.  [ctxNew] is the context [new AudioContext(...)]
    returns, [response] what the awaited [generateContent] settles
    with, reduced to the audio payload
    [candidates?.[0]?.content?.parts?.[0]?.inlineData?.data], and [dt]
    the time the device clock moves during the two awaits.  The context
    the decoder is given is [this.outputAudioContext], the one the
    function has just installed. *)
Definition speakMultiVoiceSegments (segments : list AudioSegment)
    (ctxNew : AudioContext) (response : result (option string)) (dt : Q)
    (s : GeminiService) : GeminiService * result unit :=
  match segments with
  | [] => (s, Ok tt)
  | _ :: _ =>
      let s := set_outputAudioContext (Some ctxNew) s in
      let s := set_scheduledTime (currentTime ctxNew) s in
      match response with
      | Throw e => (s, Throw e)
      | Ok audio =>
          match truthy_string audio with
          | None => (s, Ok tt)
          | Some b64 =>
              let s := advance dt s in
              let ctx := default ctxNew (outputAudioContext s) in
              match bytes ← decode b64; decodeAudioData bytes ctx 24000 1 with
              | Ok buffer => (playBuffered buffer s, Ok tt)
              | Throw e => (s, Throw e)
              end
          end
      end
  end.

(** What can happen to a service, one event at a time. *)
Inductive Event : Type :=
| Connect (stream : list TrackId) (ctxIn ctxOut : AudioContext)
          (session : SessionPromise)
| Speak (segments : list AudioSegment) (ctxNew : AudioContext)
        (response : result (option string)) (dt : Q)
| Message (dt : Q) (message : LiveServerMessage)
| Ended (source : SourceId)
| Elapse (dt : Q)
| Stop.

Definition handle (p : Platform) (s : GeminiService) (ev : Event)
    : GeminiService :=
  match ev with
  | Connect stream ctxIn ctxOut session =>
      connectLive stream ctxIn ctxOut session s
  | Speak segments ctxNew response dt =>
      fst (speakMultiVoiceSegments segments ctxNew response dt s)
  | Message dt message => fst (onmessage p dt message s)
  | Ended source => onended source s
  | Elapse dt => advance dt s
  | Stop => fst (stopLive p s)
  end.

Definition history (p : Platform) (evs : list Event) : GeminiService :=
  fold_left (handle p) evs newService.

(** The sources started so far, latest first. *)
Definition started (tr : list Call) : list SourceId :=
  omap (fun c => match c with SourceStart id _ => Some id | _ => None end) tr.

(** Every source created has been started once, in creation order, and
    the active set holds sources that were started, each once. *)
Definition tracked (s : GeminiService) : Prop :=
  started (trace s) = rev (seq 0 (created s)) /\
  NoDup (activeAudioSources s) /\
  Forall (fun id => (id < created s)%nat) (activeAudioSources s).

(** A run of [playBuffered] calls with no time in between. *)
Definition playAll (buffers : list AudioBuffer) (s : GeminiService)
    : GeminiService :=
  fold_left (fun s buffer => playBuffered buffer s) buffers s.

Definition totalDuration (buffers : list AudioBuffer) : Q :=
  fold_right (fun buffer acc => duration buffer + acc) 0 buffers.

(** Messages delivered one after another, with the outcome of each
    handler run. *)
Fixpoint deliver (p : Platform) (msgs : list (Q * LiveServerMessage))
    (s : GeminiService) : GeminiService * list (result unit) :=
  match msgs with
  | [] => (s, [])
  | (dt, message) :: rest =>
      let (s1, r) := onmessage p dt message s in
      let (s2, rs) := deliver p rest s1 in
      (s2, r :: rs)
  end.

(** The number of times the caller's [onMessage] has been invoked. *)
Definition forwarded (tr : list Call) : nat :=
  length (omap (fun c => match c with OnMessage => Some tt | _ => None end) tr).

(** The [onended] callbacks of the sources [ids], in that order. *)
Definition endAll (ids : list SourceId) (s : GeminiService) : GeminiService :=
  fold_left (fun s id => onended id s) ids s.

(** A step that starts no source and can only drop entries of the
    active set. *)
Definition calm (s s' : GeminiService) : Prop :=
  created s' = created s /\
  started (trace s') = started (trace s) /\
  activeAudioSources s' `sublist_of` activeAudioSources s.

(** A step that leaves the session handle and the cursor alone and only
    adds calls. *)
Definition after (s s' : GeminiService) : Prop :=
  activeSession s' = activeSession s /\
  scheduledTime s' = scheduledTime s /\
  exists calls, trace s' = calls ++ trace s.

End Session.

(* ===================================================================== *)
(** ** Signals the application dispatches                                 *)
(* ===================================================================== *)

Module Dispatch.

Import Phase.

(** The eighteen [dispatchIntel] calls of the application component
    (lines 187-254): seven phases, five intensities, and the reset.
    No call passes another signal. *)
Definition dispatched (a : IntelligenceAction) : Prop :=
  match a with
  | SIGNAL_PHASE p =>
      p = synthesizing \/ p = listening \/ p = explaining \/ p = reflecting
      \/ p = generating_audio \/ p = speaking \/ p = thinking
  | SIGNAL_INTENSITY v =>
      v = Fin (6 # 10) \/ v = Fin (8 # 10) \/ v = Fin (2 # 10)
      \/ v = Fin (4 # 10) \/ v = Fin (7 # 10)
  | SIGNAL_RESET => True
  | _ => False
  end.

(** What the state can look like under those signals. *)
Definition shown (s : IntelligenceState) : Prop :=
  phase s <> error /\
  (intensity s = Fin 0 \/ dispatched (SIGNAL_INTENSITY (intensity s))) /\
  confidence s = Fin 0 /\
  transcript s = EmptyString /\
  partialTranscript s = EmptyString /\
  synthesisProgress s = Fin 0.

End Dispatch.

(* ===================================================================== *)
(** ** The notebook state and its storage                                 *)
(* ===================================================================== *)

Module Vault.

(** The declarations of the data model (imported as [./types]).  A
    timestamp is the [number] that [Date.now()] returned. *)
Inductive SourceType : Type := pdf | text_ | url_ | file | derived.

Record Source : Type := mkSource {
  src_id : string;
  src_type : SourceType;
  src_title : string;
  src_content : string;
  src_notebookId : string;
  src_createdAt : number;
  src_url : option string;
  src_isDerived : option bool
}.

Inductive Role : Type := user | model.

Record ChatMessage : Type := mkChat {
  msg_id : string;
  msg_role : Role;
  msg_text : string;
  msg_timestamp : number
}.

Inductive ReflectionType : Type := micro | daily | weekly | cross_notebook.

Record Reflection : Type := mkReflection {
  refl_id : string;
  refl_type : ReflectionType;
  refl_title : string;
  refl_content : string;
  refl_timestamp : number;
  refl_openThread : option string;
  refl_clarifiedIdea : option string
}.

Inductive HypothesisStatus : Type := forming | evolving | confirmed | discarded.

(** [interface Hypothesis] ([Hypothesis] is a reserved word here). *)
Record HypothesisNote : Type := mkHypothesis {
  hyp_id : string;
  hyp_statement : string;
  hyp_confidence : number;
  hyp_status : HypothesisStatus;
  hyp_evidence : list (string * string);
  hyp_createdAt : number;
  hyp_updatedAt : number
}.

Record TimelineEvent : Type := mkTimelineEvent {
  tl_id : string;
  tl_timestamp : number;
  tl_dateString : string;
  tl_label : string;
  tl_summary : string
}.

Record AudioChapter : Type := mkChapter {
  ch_id : string;
  ch_title : string;
  ch_startTime : number;
  ch_summary : string
}.

Record AudioOverview : Type := mkOverview {
  ov_segments : list Session.AudioSegment;
  ov_chapters : list AudioChapter;
  ov_durationEstimate : string
}.

Record Notebook : Type := mkNotebook {
  nb_id : string;
  nb_name : string;
  nb_createdAt : number;
  nb_overview : option string;
  nb_reflections : option (list Reflection);
  nb_hypotheses : option (list HypothesisNote);
  nb_timeline : option (list TimelineEvent);
  nb_audioOverview : option AudioOverview
}.

Record DiscoveryResult : Type := mkDiscovery {
  dr_title : string;
  dr_url : string;
  dr_snippet : string;
  dr_relevance : string
}.

Record AppState : Type := mkApp {
  notebooks : list Notebook;
  sources : list Source;
  activeNotebookId : option string;
  messages : gmap string (list ChatMessage)
}.

(** The state [loadState] returns when nothing is stored. *)
Definition emptyState : AppState := mkApp [] [] None ∅.

(** *** The derived values of the component (lines 163-165) *)

(** [x === state.activeNotebookId] for a string [x]. *)
Definition is_active (st : AppState) (x : string) : Prop :=
  activeNotebookId st = Some x.

#[global] Instance is_active_dec st x : Decision (is_active st x).
Proof. unfold is_active. apply _. Defined.

(** [state.notebooks.find(n => n.id === state.activeNotebookId) || null] *)
Definition activeNotebook (st : AppState) : option Notebook :=
  snd <$> list_find (fun n => is_active st (nb_id n)) (notebooks st).

(** [state.sources.filter(s => s.notebookId === state.activeNotebookId)] *)
Definition activeSources (st : AppState) : list Source :=
  filter (fun s => is_active st (src_notebookId s)) (sources st).

(** Truthiness of [state.activeNotebookId]: [null] and [""] are falsy. *)
Definition truthy_id (o : option string) : option string :=
  match o with
  | Some EmptyString => None
  | other => other
  end.

(** [(state.activeNotebookId ? state.messages[state.activeNotebookId]
    : []) || []] *)
Definition activeMessages (st : AppState) : list ChatMessage :=
  match truthy_id (activeNotebookId st) with
  | Some id => default [] (messages st !! id)
  | None => []
  end.

(** *** The state updates of the handlers *)

(** [handleAddNotebook(name)] (lines 168-183); [id] is what
    [crypto.randomUUID()] returned and [now] what [Date.now()] did. *)
Definition handleAddNotebook (id : string) (now : number) (name : string)
    (st : AppState) : AppState :=
  let newNotebook :=
    mkNotebook id name now None (Some []) (Some []) (Some []) None in
  mkApp (notebooks st ++ [newNotebook]) (sources st) (Some id) (messages st).

(** The click on a notebook of the side bar (line 282). *)
Definition selectNotebook (id : string) (st : AppState) : AppState :=
  mkApp (notebooks st) (sources st) (Some id) (messages st).

(** What the source dialog hands to [onAdd]. *)
Record NewSource : Type := mkNewSource {
  new_type : SourceType;
  new_title : string;
  new_content : string;
  new_url : option string
}.

(** The [onAdd] of the source dialog (lines 567-572). *)
Definition addSource (id : string) (now : number) (n : NewSource)
    (st : AppState) : AppState :=
  match truthy_id (activeNotebookId st) with
  | Some active =>
      let ns := mkSource id (new_type n) (new_title n) (new_content n)
                         active now (new_url n) None in
      mkApp (notebooks st) (sources st ++ [ns]) (activeNotebookId st)
            (messages st)
  | None => st
  end.

Definition newline : string := String (ascii_of_nat 10) EmptyString.

(** The results [discoveryResults.filter((_, idx) =>
    discoverySelected.has(idx))] keeps, each with its index. *)
Definition pick (selected : gset nat) (results : list DiscoveryResult)
    : list (nat * DiscoveryResult) :=
  filter (fun ir => ir.1 ∈ selected) (zip (seq 0 (length results)) results).

(** The sources [handleImportDiscovery] builds (line 265).  [uuid k]
    and [clock k] are what the [k]-th call of [crypto.randomUUID()] and
    of [Date.now()] in the [map] return. *)
Definition importedSources (uuid : nat -> string) (clock : nat -> number)
    (results : list DiscoveryResult) (selected : gset nat) (nb : Notebook)
    : list Source :=
  imap (fun k ir =>
          mkSource (uuid k) url_ (dr_title ir.2)
            (dr_snippet ir.2 +:+ newline +:+ newline +:+ dr_relevance ir.2)
            (nb_id nb) (clock k) (Some (dr_url ir.2)) None)
       (pick selected results).

(** [handleImportDiscovery] (lines 263-268). *)
Definition handleImportDiscovery (uuid : nat -> string) (clock : nat -> number)
    (results : list DiscoveryResult) (selected : gset nat) (st : AppState)
    : AppState :=
  match activeNotebook st with
  | None => st
  | Some nb =>
      mkApp (notebooks st)
            (sources st ++ importedSources uuid clock results selected nb)
            (activeNotebookId st) (messages st)
  end.

(** The two [setState] calls of [handleSendMessage] (lines 250 and
    253): [message] joins the thread of notebook [nbId]. *)
Definition appendMessage (nbId : string) (message : ChatMessage)
    (st : AppState) : AppState :=
  mkApp (notebooks st) (sources st) (activeNotebookId st)
        (<[nbId := default [] (messages st !! nbId) ++ [message]]> (messages st)).

(** The updates above, as the events of a session at the notebooks. *)
Inductive Edit : Type :=
| AddNotebook (id : string) (now : number) (name : string)
| SelectNotebook (id : string)
| AddSource (id : string) (now : number) (n : NewSource)
| ImportDiscovery (uuid : nat -> string) (clock : nat -> number)
                  (results : list DiscoveryResult) (selected : gset nat)
| AppendMessage (nbId : string) (message : ChatMessage).

Definition apply (st : AppState) (e : Edit) : AppState :=
  match e with
  | AddNotebook id now name => handleAddNotebook id now name st
  | SelectNotebook id => selectNotebook id st
  | AddSource id now n => addSource id now n st
  | ImportDiscovery uuid clock results selected =>
      handleImportDiscovery uuid clock results selected st
  | AppendMessage nbId message => appendMessage nbId message st
  end.

(** Nothing is lost from [st] to [st']: the notebooks and the sources
    of [st] open the lists of [st'], and every thread of [st] opens the
    thread of the same notebook in [st']. *)
Definition grows (st st' : AppState) : Prop :=
  notebooks st `prefix_of` notebooks st' /\
  sources st `prefix_of` sources st' /\
  forall k thread, messages st !! k = Some thread ->
    exists thread', messages st' !! k = Some thread' /\ thread `prefix_of` thread'.

(** *** The update of [handleGenerateOverview] *)

(** [notebookUpdate] (lines 193-198): what the handler takes from the
    synthesis result, ids and timestamps filled in. *)
Record NotebookUpdate : Type := mkUpdate {
  up_reflections : list Reflection;
  up_hypotheses : list HypothesisNote;
  up_timeline : list TimelineEvent;
  up_audioOverview : option AudioOverview
}.

(** [{ ...nb, ...notebookUpdate }]: the four keys of the update
    replace those of the notebook, [audioOverview] also when the result
    has none. *)
Definition patch (u : NotebookUpdate) (nb : Notebook) : Notebook :=
  mkNotebook (nb_id nb) (nb_name nb) (nb_createdAt nb) (nb_overview nb)
             (Some (up_reflections u)) (Some (up_hypotheses u))
             (Some (up_timeline u)) (up_audioOverview u).

(** [derivedSource] (line 192). *)
Definition derivedSource (briefingId title content nbId : string)
    (now : number) : Source :=
  mkSource briefingId derived title content nbId now None (Some true).

(** [nb => nb.id === activeNotebook.id ? { ...nb, ...notebookUpdate } : nb] *)
Definition patchOne (nbId : string) (u : NotebookUpdate) (nb : Notebook)
    : Notebook :=
  if decide (nb_id nb = nbId) then patch u nb else nb.

(** The [setState] of [handleGenerateOverview] (line 199).  [nbId] is
    [activeNotebook.id] as the handler read it before it awaited the
    synthesis; [st] is the state at the time of the update. *)
Definition applyOverview (nbId briefingId title content : string)
    (now : number) (u : NotebookUpdate) (st : AppState) : AppState :=
  mkApp (map (patchOne nbId u) (notebooks st))
        (sources st ++ [derivedSource briefingId title content nbId now])
        (activeNotebookId st) (messages st).

(** Every [setState] of the component: the edits above and the update
    of [handleGenerateOverview]. *)
Inductive Update : Type :=
| Plain (e : Edit)
| Overview (nbId briefingId title content : string) (now : number)
           (u : NotebookUpdate).

Definition perform (st : AppState) (up : Update) : AppState :=
  match up with
  | Plain e => apply st e
  | Overview nbId briefingId title content now u =>
      applyOverview nbId briefingId title content now u st
  end.

(** As [grows], with the notebooks compared by id: an update may
    rewrite a notebook in place. *)
Definition keeps (st st' : AppState) : Prop :=
  map nb_id (notebooks st) `prefix_of` map nb_id (notebooks st') /\
  sources st `prefix_of` sources st' /\
  forall k thread, messages st !! k = Some thread ->
    exists thread', messages st' !! k = Some thread' /\ thread `prefix_of` thread'.

(** *** [storageService] *)

Definition STORAGE_KEY : string := "notebook_ai_state".

Section Json.

(** [JSON.stringify] and [JSON.parse] on application states; [None] is
    the [SyntaxError] that [JSON.parse] throws. *)
Variable stringify : AppState -> string.
Variable parse : string -> option AppState.

(** [localStorage]: a map from keys to strings. *)
Definition saveState (st : AppState) (store : gmap string string)
    : gmap string string :=
  <[STORAGE_KEY := stringify st]> store.

(** [if (!saved)]: a missing item and the empty string are falsy. *)
Definition loadState (store : gmap string string) : option AppState :=
  match store !! STORAGE_KEY with
  | None | Some EmptyString => Some emptyState
  | Some saved => parse saved
  end.

Definition clear (store : gmap string string) : gmap string string :=
  delete STORAGE_KEY store.

End Json.

End Vault.

(* ===================================================================== *)
(** ** [GeminiService]: discovery and the podcast script                  *)
(* ===================================================================== *)

Module Discovery.

Import Vault.

(** [chunk.web] of a grounding chunk. *)
Record Web : Type := mkWeb {
  web_title : option string;
  web_uri : option string
}.

Record GroundingChunk : Type := mkChunk {
  web : option Web
}.

(** [x || d] for an optional string: [undefined] and [""] give [d]. *)
Definition or_else (x : option string) (d : string) : string :=
  match x with
  | Some EmptyString | None => d
  | Some v => v
  end.

(** The tail of [discoverSources] (lines 39-48): from the grounding
    chunks and [response.text] to the results. *)
Definition discoverSources (chunks : list GroundingChunk)
    (responseText : option string) : list DiscoveryResult :=
  filter (fun r => dr_url r <> EmptyString)
    (map (fun chunk =>
            mkDiscovery
              (or_else (web chunk ≫= web_title) "Knowledge Artifact")
              (or_else (web chunk ≫= web_uri) "")
              (or_else (substring 0 500 <$> responseText)
                       "Grounded datastream unit.")
              "Verified Grounded Source (Recent)")
       (filter (fun chunk => is_Some (web chunk)) chunks)).

(** [String.prototype.toUpperCase] on a string of ASCII characters,
    which is all the script builder applies it to. *)
Definition upper (c : ascii) : ascii :=
  let n := nat_of_ascii c in
  if (97 <=? n)%nat && (n <=? 122)%nat then ascii_of_nat (n - 32) else c.

Fixpoint toUpperCase (s : string) : string :=
  match s with
  | EmptyString => EmptyString
  | String c rest => String (upper c) (toUpperCase rest)
  end.


Definition is_voice (s : Session.AudioSegment) : Prop :=
  Session.voice s = "narrator" \/ Session.voice s = "analyst".

#[global] Instance is_voice_dec s : Decision (is_voice s).
Proof. unfold is_voice. apply _. Defined.




End Discovery.

(* ===================================================================== *)
(** * Part II: properties                                                 *)
(* ===================================================================== *)

(* ===================================================================== *)
(** ** The phase reducer                                                  *)
(* ===================================================================== *)

Module PhaseFacts.

Import Phase.

Lemma decide_is_reset (a : IntelligenceAction) :
  a = SIGNAL_RESET \/ a <> SIGNAL_RESET.
Proof. destruct a; (left; reflexivity) || (right; discriminate). Qed.

Lemma reducer_keeps_interruptible s a :
  a <> SIGNAL_RESET ->
  interruptible (intelligenceReducer s a) = interruptible s.
Proof.
  intros Ha. destruct a as [p|v|v|t [[|]|]|v| |]; simpl; congruence.
Qed.

Lemma reducer_keeps_lastUtteranceTs s a :
  a <> SIGNAL_RESET ->
  lastUtteranceTs (intelligenceReducer s a) = lastUtteranceTs s.
Proof.
  intros Ha. destruct a as [p|v|v|t [[|]|]|v| |]; simpl; congruence.
Qed.

Lemma reducer_constants_held s a :
  constants_held s -> constants_held (intelligenceReducer s a).
Proof.
  intros [Hi Hl].
  destruct a as [p|v|v|t [[|]|]|v| |]; split; simpl; auto.
Qed.

Lemma dispatchAll_constants_held actions : forall s,
  constants_held s -> constants_held (dispatchAll actions s).
Proof.
  induction actions as [|a actions IH]; intros s Hs; simpl.
  - exact Hs.
  - apply IH, reducer_constants_held, Hs.
Qed.


(** C6. Frame conditions of three signals, for every state:
    [SIGNAL_PHASE p] writes [phase] alone; [SIGNAL_INTERRUPT] sets
    [phase] to explaining, [intensity] to zero and [partialTranscript]
    to the empty string and nothing else; [SIGNAL_TRANSCRIPT] with a
    true [partial] writes [partialTranscript] alone, and otherwise
    (flag absent or false) writes the text to [transcript], empties
    [partialTranscript] and nothing else. *)
Theorem intelligenceReducer_frame :
  forall (s : IntelligenceState),
    (forall p, intelligenceReducer s (SIGNAL_PHASE p) =
       mkState p (intensity s) (confidence s) (interruptible s)
               (transcript s) (partialTranscript s) (synthesisProgress s)
               (lastUtteranceTs s)) /\
    intelligenceReducer s SIGNAL_INTERRUPT =
       mkState explaining (Fin 0) (confidence s) (interruptible s)
               (transcript s) EmptyString (synthesisProgress s)
               (lastUtteranceTs s) /\
    (forall text, intelligenceReducer s (SIGNAL_TRANSCRIPT text (Some true)) =
       mkState (phase s) (intensity s) (confidence s) (interruptible s)
               (transcript s) text (synthesisProgress s)
               (lastUtteranceTs s)) /\
    (forall text, intelligenceReducer s (SIGNAL_TRANSCRIPT text None) =
       mkState (phase s) (intensity s) (confidence s) (interruptible s)
               text EmptyString (synthesisProgress s) (lastUtteranceTs s)) /\
    (forall text, intelligenceReducer s (SIGNAL_TRANSCRIPT text (Some false)) =
       mkState (phase s) (intensity s) (confidence s) (interruptible s)
               text EmptyString (synthesisProgress s) (lastUtteranceTs s)).
Proof.
  intros s. repeat split.
Qed.

(** C10. [interruptible] and [lastUtteranceTs] are constants of the
    machine: in the state after any sequence of signals dispatched from
    the initial state the first is [true] and the second is [0]; a
    signal other than [SIGNAL_RESET] leaves both as they were, and
    [SIGNAL_RESET] puts the initial values [true] and [0] back. *)
Theorem interruptible_lastUtteranceTs_constant :
  (forall actions : list IntelligenceAction,
     interruptible (dispatchAll actions initialIntelligenceState) = true /\
     lastUtteranceTs (dispatchAll actions initialIntelligenceState) = Fin 0) /\
  (forall s a,
     interruptible (intelligenceReducer s a) =
       match a with SIGNAL_RESET => true | _ => interruptible s end /\
     lastUtteranceTs (intelligenceReducer s a) =
       match a with SIGNAL_RESET => Fin 0 | _ => lastUtteranceTs s end).
Proof.
  split.
  - intros actions. apply (dispatchAll_constants_held actions).
    split; reflexivity.
  - intros s a. destruct (decide_is_reset a) as [-> | Ha].
    + split; reflexivity.
    + rewrite (reducer_keeps_interruptible s a Ha),
              (reducer_keeps_lastUtteranceTs s a Ha).
      destruct a; try contradiction; split; reflexivity.
Qed.

End PhaseFacts.

(* ===================================================================== *)
(** ** The playback scheduler                                             *)
(* ===================================================================== *)

Module SchedulerFacts.

Import WebAudio Service Scenario.

(** [Math.max] returns one of its arguments. *)
Lemma Qmax_cases (x y : Q) :
  (y <= x /\ Qmax x y = x) \/ (x < y /\ Qmax x y = y).
Proof.
  unfold Qmax, GenericMinMax.gmax.
  destruct (Qcompare x y) eqn:E.
  - left. split; [|reflexivity]. apply Qeq_alt in E. rewrite E. apply Qle_refl.
  - right. split; [|reflexivity]. apply Qlt_alt, E.
  - left. split; [|reflexivity]. apply Qgt_alt in E. apply Qlt_le_weak, E.
Qed.

Lemma or_zero_eq (x : Q) : or_zero x == x.
Proof.
  unfold or_zero. destruct (Qeq_bool x 0) eqn:E.
  - apply Qeq_bool_eq in E. symmetry. exact E.
  - reflexivity.
Qed.

Section WithContext.

Variable s : GeminiService.
Variable ctx : AudioContext.
Hypothesis Hctx : outputAudioContext s = Some ctx.

Lemma playBuffered_lastStart buffer :
  lastStart (playBuffered buffer s)
  = Some (Qmax (scheduledTime s) (currentTime ctx)).
Proof. unfold playBuffered. rewrite Hctx. reflexivity. Qed.

Lemma playBuffered_scheduledTime buffer :
  scheduledTime (playBuffered buffer s)
  = Qmax (scheduledTime s) (currentTime ctx) + duration buffer.
Proof. unfold playBuffered. rewrite Hctx. reflexivity. Qed.

Lemma playBuffered_context buffer :
  outputAudioContext (playBuffered buffer s) = Some ctx.
Proof. unfold playBuffered. rewrite Hctx. simpl. exact Hctx. Qed.

Lemma advance_context dt :
  outputAudioContext (advance dt s)
  = Some (mkContext (currentTime ctx + dt) (maxChannels ctx)
                    (minSampleRate ctx) (maxSampleRate ctx)).
Proof. unfold advance. rewrite Hctx. reflexivity. Qed.

Lemma advance_scheduledTime dt :
  scheduledTime (advance dt s) = scheduledTime s.
Proof. unfold advance. rewrite Hctx. reflexivity. Qed.

Lemma playLog_cons dt buffer rest :
  playLog ((dt, buffer) :: rest) s
  = mkPlayed (currentTime ctx + dt)
             (Qmax (scheduledTime s) (currentTime ctx + dt))
             (duration buffer)
    :: playLog rest (playBuffered buffer (advance dt s)).
Proof.
  simpl. unfold now.
  rewrite (advance_context dt). simpl.
  unfold playBuffered at 1. rewrite (advance_context dt). simpl.
  rewrite (advance_scheduledTime dt). reflexivity.
Qed.

End WithContext.

Lemma stopSources_trace p s :
  trace (stopSources p s)
  = rev (map SourceStop (activeAudioSources s)) ++ trace s.
Proof.
  unfold stopSources.
  generalize (activeAudioSources s) as l. intros l. revert s.
  induction l as [|x l IH]; intros s; simpl.
  - reflexivity.
  - rewrite IH. simpl. rewrite <- app_assoc. reflexivity.
Qed.

Lemma stop_fold_fields (l : list SourceId) : forall s,
  let s' := fold_left (fun s src => call (SourceStop src) s) l s in
  activeSession s' = activeSession s /\
  inputAudioContext s' = inputAudioContext s /\
  outputAudioContext s' = outputAudioContext s /\
  micStream s' = micStream s /\
  scheduledTime s' = scheduledTime s /\
  activeAudioSources s' = activeAudioSources s /\
  created s' = created s.
Proof.
  induction l as [|x l IH]; intros s; simpl.
  - repeat split.
  - destruct (IH (call (SourceStop x) s)) as (H1 & H2 & H3 & H4 & H5 & H6 & H7).
    simpl in *. rewrite H1, H2, H3, H4, H5, H6, H7. repeat split.
Qed.

Lemma stopSources_fields p s :
  activeSession (stopSources p s) = activeSession s /\
  inputAudioContext (stopSources p s) = inputAudioContext s /\
  outputAudioContext (stopSources p s) = outputAudioContext s /\
  micStream (stopSources p s) = micStream s /\
  scheduledTime (stopSources p s) = scheduledTime s /\
  activeAudioSources (stopSources p s) = activeAudioSources s /\
  created (stopSources p s) = created s.
Proof. apply (stop_fold_fields (activeAudioSources s) s). Qed.

Lemma stopSources_stops_all p s src :
  src ∈ activeAudioSources s -> SourceStop src ∈ trace (stopSources p s).
Proof.
  intros Hin. rewrite stopSources_trace.
  apply list_elem_of_In. apply list_elem_of_In in Hin.
  apply in_or_app. left. apply -> in_rev. apply in_map, Hin.
Qed.

Lemma playLog_no_context calls : forall s,
  outputAudioContext s = None -> playLog calls s = [].
Proof.
  induction calls as [|[dt buffer] rest IH]; intros s Hs; simpl.
  - reflexivity.
  - unfold now, advance, playBuffered. rewrite Hs. simpl. rewrite Hs.
    apply IH, Hs.
Qed.

Lemma playLog_length calls : forall s ctx,
  outputAudioContext s = Some ctx -> length (playLog calls s) = length calls.
Proof.
  induction calls as [|[dt buffer] rest IH]; intros s ctx Hs.
  - reflexivity.
  - rewrite (playLog_cons s ctx Hs). simpl. f_equal.
    eapply IH, playBuffered_context, advance_context, Hs.
Qed.

(** The recurrence of the cursor along a run of calls. *)
Lemma playLog_adjacent calls : forall s k a b,
  playLog calls s !! k = Some a ->
  playLog calls s !! S k = Some b ->
  startedAt b = Qmax (startedAt a + lasts a) (calledAt b).
Proof.
  induction calls as [|[dt buffer] rest IH]; intros s k a b Ha Hb.
  - discriminate Ha.
  - destruct (outputAudioContext s) as [ctx|] eqn:Hs.
    2:{ rewrite (playLog_no_context _ s Hs) in Ha. discriminate Ha. }
    rewrite (playLog_cons s ctx Hs) in Ha, Hb.
    pose proof (advance_context s ctx Hs dt) as Hadv.
    pose proof (playBuffered_context _ _ Hadv buffer) as Hplay.
    destruct k as [|k]; simpl in Ha, Hb.
    + injection Ha as <-.
      destruct rest as [|[dt2 buffer2] rest]; [discriminate Hb|].
      rewrite (playLog_cons _ _ Hplay) in Hb. simpl in Hb.
      injection Hb as <-. simpl.
      rewrite (playBuffered_scheduledTime _ _ Hadv buffer).
      rewrite (advance_scheduledTime s ctx Hs dt). reflexivity.
    + eapply IH; eassumption.
Qed.

(** C1. Along any sequence of [playBuffered] calls with nothing but
    time in between (no flush), call [k+1] starts where buffer [k]
    ends, start [k] plus duration [k], unless the device clock read at
    call [k+1] is already past that instant, and then it starts at that
    clock reading; in both cases not before buffer [k] ends, so two
    consecutive buffers never overlap. *)
Theorem playBuffered_gapless_no_overlap :
  forall (calls : list (Q * AudioBuffer)) (s : GeminiService)
         (k : nat) (a b : Played),
    playLog calls s !! k = Some a ->
    playLog calls s !! S k = Some b ->
    (calledAt b <= startedAt a + lasts a ->
       startedAt b = startedAt a + lasts a) /\
    (startedAt a + lasts a < calledAt b -> startedAt b = calledAt b) /\
    startedAt a + lasts a <= startedAt b.
Proof.
  intros calls s k a b Ha Hb.
  rewrite (playLog_adjacent calls s k a b Ha Hb).
  destruct (Qmax_cases (startedAt a + lasts a) (calledAt b)) as [[Hle ->]|[Hlt ->]].
  - split; [reflexivity|]. split; [|apply Qle_refl].
    intros Hlt. exfalso. apply (Qlt_not_le _ _ Hlt), Hle.
  - split; [|split].
    + intros Hle. exfalso. apply (Qlt_not_le _ _ Hlt), Hle.
    + reflexivity.
    + apply Qlt_le_weak, Hlt.
Qed.

Lemma flush_context p s ctx :
  outputAudioContext s = Some ctx -> outputAudioContext (flush p s) = Some ctx.
Proof.
  intros Hs. unfold flush. simpl.
  destruct (stopSources_fields p s) as (_ & _ & -> & _). exact Hs.
Qed.

Lemma flush_scheduledTime p s ctx :
  outputAudioContext s = Some ctx ->
  scheduledTime (flush p s) = or_zero (currentTime ctx).
Proof.
  intros Hs. unfold flush. simpl.
  destruct (stopSources_fields p s) as (_ & _ & -> & _). rewrite Hs.
  reflexivity.
Qed.

(** C2. With an output context in place, the interruption flush calls
    [stop] on every source in the active set (these calls, in the order
    of the set, and no other), leaves the set empty and the cursor equal
    to the device clock; and whatever buffer is
    scheduled next, however long after, starts no earlier than the
    clock reading at the flush. *)
Theorem flush_then_schedule :
  forall (p : Platform) (s : GeminiService) (ctx : AudioContext)
         (dt : Q) (buffer : AudioBuffer),
    outputAudioContext s = Some ctx ->
    trace (flush p s)
      = rev (map SourceStop (activeAudioSources s)) ++ trace s /\
    (forall src, src ∈ activeAudioSources s ->
                 SourceStop src ∈ trace (flush p s)) /\
    activeAudioSources (flush p s) = [] /\
    scheduledTime (flush p s) == currentTime ctx /\
    exists t,
      lastStart (playBuffered buffer (advance dt (flush p s))) = Some t /\
      currentTime ctx <= t.
Proof.
  intros p s ctx dt buffer Hs.
  pose proof (flush_context p s ctx Hs) as Hf.
  pose proof (flush_scheduledTime p s ctx Hs) as Ht.
  split; [|split; [|split; [|split]]].
  - unfold flush. simpl. apply stopSources_trace.
  - intros src Hin. unfold flush. simpl. apply stopSources_stops_all, Hin.
  - reflexivity.
  - rewrite Ht. apply or_zero_eq.
  - eexists. split.
    + apply (playBuffered_lastStart _ _ (advance_context _ _ Hf dt)).
    + simpl. rewrite (advance_scheduledTime _ _ Hf dt), Ht.
      eapply Qle_trans; [|apply Q.le_max_l].
      rewrite or_zero_eq. apply Qle_refl.
Qed.

(** The same inside one handler run: a message that is both
    [interrupted] and carries a frame that decodes is flushed first and
    scheduled second. *)
Lemma onmessage_flush_then_play p dt message s ctx b64 bytes buffer :
  interrupted message = true ->
  truthy_string (base64Audio message) = Some b64 ->
  outputAudioContext s = Some ctx ->
  Pcm.decode b64 = Ok bytes ->
  Pcm.decodeAudioData bytes ctx 24000 1 = Ok buffer ->
  onmessage p dt message s
  = (call OnMessage (playBuffered buffer (advance dt (flush p s))), Ok tt).
Proof.
  intros Hi Hb Hs Hd Hbuf. unfold onmessage.
  rewrite Hi, Hb, (flush_context p s ctx Hs), Hd. simpl.
  rewrite Hbuf. reflexivity.
Qed.

(** The scenario of three half-second frames arriving at once on an
    idle scheduler: they start at 0, 1/2 and 1. *)
Example three_frames_back_to_back :
  forall samples : list number,
    Forall2 Qeq
      (map startedAt
         (playLog [(0, mkBuffer 1 4000 8000 [samples]);
                   (0, mkBuffer 1 4000 8000 [samples]);
                   (0, mkBuffer 1 4000 8000 [samples])] live0))
      [0; 1 # 2; 1].
Proof.
  intros samples. vm_compute.
  constructor; [reflexivity|]. constructor; [reflexivity|].
  constructor; [reflexivity|]. constructor.
Qed.

Lemma playBuffered_gapless_no_overlap_witness :
  playLog [(0, tiny); (1, tiny)] live0 !! 0%nat
    = Some (mkPlayed 0 0 (2 # 24000)) /\
  playLog [(0, tiny); (1, tiny)] live0 !! 1%nat
    = Some (mkPlayed 1 1 (2 # 24000)) /\
  0 + (2 # 24000) <= 1.
Proof.
  split; [reflexivity|]. split; [reflexivity|].
  apply (playBuffered_gapless_no_overlap
           [(0, tiny); (1, tiny)] live0 0
           (mkPlayed 0 0 (2 # 24000)) (mkPlayed 1 1 (2 # 24000))
           eq_refl eq_refl).
Defined.

Lemma flush_then_schedule_witness :
  activeAudioSources (flush quiet live2) = [] /\
  scheduledTime (flush quiet live2) == 0.
Proof.
  destruct (flush_then_schedule quiet live2 ctx0 0 tiny eq_refl)
    as (_ & _ & Hempty & Hcursor & _).
  split; [exact Hempty | exact Hcursor].
Defined.

Lemma run_context p ops : forall s ctx,
  outputAudioContext s = Some ctx ->
  exists ctx', outputAudioContext (run p ops s) = Some ctx'.
Proof.
  induction ops as [|op ops IH]; intros s ctx Hs; simpl.
  - exists ctx. exact Hs.
  - destruct op as [buffer| |dt]; simpl.
    + eapply IH, playBuffered_context, Hs.
    + eapply IH, flush_context, Hs.
    + eapply IH, advance_context, Hs.
Qed.

(** C7, the claim as stated fails: one buffer of two frames is
    scheduled at time zero and a second passes; the cursor stands at
    [2/24000] and the device clock at [1]. *)
Lemma cursor_falls_behind_clock :
  ~ (forall (ops : list Op) (n : Q),
       Forall clock_forward ops ->
       now (run quiet ops live0) = Some n ->
       n <= scheduledTime (run quiet ops live0)).
Proof.
  intros H.
  specialize (H [Schedule tiny; Tick 1] 1).
  assert (Hops : Forall clock_forward [Schedule tiny; Tick 1]).
  { repeat constructor. simpl. discriminate. }
  specialize (H Hops eq_refl). vm_compute in H. apply H. reflexivity.
Qed.

(** C7, amended.  In every state of a run on an output context, each
    operation leaves the cursor as follows.  A schedule sets it to
    [max cursor clock + duration]: it rises by the buffer's duration at
    least, and ends at or after the clock.  A flush sets it to the
    clock.  Time passing does not move it (so between operations the
    clock may overtake it). *)
Theorem cursor_after_operation :
  forall (p : Platform) (ops : list Op) (s : GeminiService)
         (ctx : AudioContext),
    outputAudioContext s = Some ctx ->
    exists n,
      now (run p ops s) = Some n /\
      (forall buffer, 0 <= duration buffer ->
         now (step p (run p ops s) (Schedule buffer)) = Some n /\
         scheduledTime (step p (run p ops s) (Schedule buffer))
           = Qmax (scheduledTime (run p ops s)) n + duration buffer /\
         scheduledTime (run p ops s) + duration buffer
           <= scheduledTime (step p (run p ops s) (Schedule buffer)) /\
         n <= scheduledTime (step p (run p ops s) (Schedule buffer))) /\
      (now (step p (run p ops s) Flush) = Some n /\
       scheduledTime (step p (run p ops s) Flush) == n) /\
      (forall dt,
         scheduledTime (step p (run p ops s) (Tick dt))
           = scheduledTime (run p ops s)).
Proof.
  intros p ops s ctx Hs.
  destruct (run_context p ops s ctx Hs) as [ctx' Hr].
  set (s1 := run p ops s) in *.
  exists (currentTime ctx'). split; [unfold now; rewrite Hr; reflexivity|].
  split; [|split].
  - intros buffer Hd. simpl.
    rewrite (playBuffered_scheduledTime s1 ctx' Hr buffer).
    unfold now. rewrite (playBuffered_context s1 ctx' Hr buffer).
    split; [reflexivity|]. split; [reflexivity|].
    pose proof (Q.le_max_l (scheduledTime s1) (currentTime ctx')).
    pose proof (Q.le_max_r (scheduledTime s1) (currentTime ctx')).
    split; lra.
  - change (step p s1 Flush) with (flush p s1).
    unfold now. rewrite (flush_context p s1 ctx' Hr).
    split; [reflexivity|].
    rewrite (flush_scheduledTime p s1 ctx' Hr). apply or_zero_eq.
  - intros dt. simpl. apply (advance_scheduledTime s1 ctx' Hr).
Qed.

Lemma cursor_after_operation_witness :
  exists n,
    now (run quiet [Schedule tiny; Tick 1] live0) = Some n /\
    scheduledTime (step quiet (run quiet [Schedule tiny; Tick 1] live0) Flush)
      == n.
Proof.
  destruct (cursor_after_operation quiet [Schedule tiny; Tick 1] live0 ctx0
              eq_refl) as (n & Hn & _ & [_ Hf] & _).
  exists n. split; [exact Hn | exact Hf].
Defined.

End SchedulerFacts.

(* ===================================================================== *)
(** ** Session teardown                                                   *)
(* ===================================================================== *)

Module TeardownFacts.

Import WebAudio Service Scenario.

(** The stops of the active sources change the trace and nothing else. *)
Lemma stop_fold_eq (l : list SourceId) : forall s,
  fold_left (fun s src => call (SourceStop src) s) l s
  = mkService (activeSession s) (inputAudioContext s) (outputAudioContext s)
              (micStream s) (scheduledTime s) (activeAudioSources s)
              (created s) (rev (map SourceStop l) ++ trace s).
Proof.
  induction l as [|x l IH]; intros s; simpl.
  - destruct s; reflexivity.
  - rewrite IH. simpl. rewrite <- app_assoc. reflexivity.
Qed.

(** Track stops that do not throw all run, and change the trace alone. *)
Lemma stopTracks_quiet p (tracks : list TrackId) :
  (forall t, p (TrackStop t) = None) ->
  forall s,
    stopTracks p tracks s
    = (mkService (activeSession s) (inputAudioContext s)
                 (outputAudioContext s) (micStream s) (scheduledTime s)
                 (activeAudioSources s) (created s)
                 (rev (map TrackStop tracks) ++ trace s), Ok tt).
Proof.
  intros Hp. induction tracks as [|t tracks IH]; intros s; simpl.
  - destruct s; reflexivity.
  - rewrite Hp, IH. simpl. rewrite <- app_assoc. reflexivity.
Qed.

(** A second teardown finds nothing to release. *)
Lemma stopLive_released p s :
  released s -> stopLive p s = (s, Ok tt).
Proof.
  destruct s as [sess inp out mic t act n tr].
  intros (Hs & Hm & Ha & Hi & Ho). simpl in *. subst.
  reflexivity.
Qed.

(** A second call that began before the first one finished, and
    resumes from its [await] after it: it closes the channel once more
    inside the handler and finds nothing else to release. *)
Lemma stopLive_resume_released p awaited s :
  released s ->
  stopLive_resume p awaited s = (closeSession awaited s, Ok tt) /\
  released (closeSession awaited s).
Proof.
  destruct s as [sess inp out mic t act n tr].
  intros (Hs & Hm & Ha & Hi & Ho). simpl in *. subst.
  destruct awaited as [[|e]|]; split; try reflexivity; repeat split.
Qed.

(** C8, the claim as stated fails: on a platform where stopping the
    microphone track throws, the teardown of a live session with two
    scheduled sources ends at that step with the error; neither source
    is stopped, the active set keeps both and both contexts stay open,
    and a second call ends the same way. *)
Lemma stopLive_aborts_on_track_failure :
  snd (stopLive stuckTrack live2) = Throw InvalidStateError /\
  activeAudioSources (fst (stopLive stuckTrack live2)) = [0; 1]%nat /\
  trace (fst (stopLive stuckTrack live2))
    = [TrackStop 0%nat; SessionClose;
       SourceStart 1%nat (2 # 24000); SourceStart 0%nat 0] /\
  inputAudioContext (fst (stopLive stuckTrack live2)) = Some ctx0 /\
  outputAudioContext (fst (stopLive stuckTrack live2)) = Some ctx0 /\
  snd (stopLive stuckTrack (fst (stopLive stuckTrack live2)))
    = Throw InvalidStateError /\
  ~ (forall p s, snd (stopLive p s) = Ok tt /\ released (fst (stopLive p s))).
Proof.
  repeat (split; [reflexivity|]).
  intros H. destruct (H stuckTrack live2) as [Hok _]. discriminate Hok.
Qed.

(** C8, amended.  On a platform where the track stops and the context
    closes do not throw, and whatever the channel close and the source
    stops do (they are inside [try]/[catch]), [stopLive] completes
    without error, has let go of the session, the microphone, both
    contexts and the active set, and has made every release call of
    [teardownCalls], the [stop] of every source that was active among
    them.  Called again, on any platform, it makes no call, changes
    nothing and completes without error; and a call that had started
    before and resumes from its [await] afterwards completes without
    error too, with everything still released. *)
Theorem stopLive_idempotent :
  forall (p : Platform) (s : GeminiService),
    (forall t, p (TrackStop t) = None) ->
    (forall port, p (ContextClose port) = None) ->
    snd (stopLive p s) = Ok tt /\
    released (fst (stopLive p s)) /\
    trace (fst (stopLive p s)) = teardownCalls s ++ trace s /\
    (forall src, src ∈ activeAudioSources s ->
                 SourceStop src ∈ trace (fst (stopLive p s))) /\
    (forall p', stopLive p' (fst (stopLive p s))
                = (fst (stopLive p s), Ok tt)) /\
    (forall p' awaited,
       snd (stopLive_resume p' awaited (fst (stopLive p s))) = Ok tt /\
       released (fst (stopLive_resume p' awaited (fst (stopLive p s))))).
Proof.
  intros p s Ht Hc.
  assert (Hmain : snd (stopLive p s) = Ok tt /\
                  released (fst (stopLive p s)) /\
                  trace (fst (stopLive p s)) = teardownCalls s ++ trace s).
  { destruct s as [sess inp out mic t act n tr].
    unfold stopLive, stopLive_resume, closeSession, stopSources,
      teardownCalls. simpl.
    destruct sess as [[|e]|]; simpl;
      (destruct mic as [tracks|]; simpl;
       [rewrite (stopTracks_quiet p tracks Ht); simpl|]);
      rewrite stop_fold_eq; simpl;
      unfold closeContext; simpl;
      (destruct inp as [ci|]; simpl; [rewrite (Hc Input); simpl|]);
      (destruct out as [co|]; simpl; [rewrite (Hc Output); simpl|]);
      (split; [reflexivity|]); (split; [repeat split|]);
      rewrite <- ?app_assoc; simpl; rewrite ?app_nil_r; reflexivity. }
  destruct Hmain as (Hok & Hrel & Htrace).
  split; [exact Hok|]. split; [exact Hrel|]. split; [exact Htrace|].
  split.
  - intros src Hsrc. rewrite Htrace. unfold teardownCalls.
    apply list_elem_of_In. apply list_elem_of_In in Hsrc.
    apply in_or_app. left. apply in_or_app. right.
    apply in_or_app. right. apply in_or_app. left.
    apply -> in_rev. apply in_map, Hsrc.
  - split.
    + intros p'. apply stopLive_released, Hrel.
    + intros p' awaited.
      destruct (stopLive_resume_released p' awaited _ Hrel) as [-> Hr].
      split; [reflexivity | exact Hr].
Qed.

Lemma stopLive_idempotent_witness :
  snd (stopLive quiet live2) = Ok tt /\
  released (fst (stopLive quiet live2)) /\
  stopLive stuckTrack (fst (stopLive quiet live2))
  = (fst (stopLive quiet live2), Ok tt).
Proof.
  destruct (stopLive_idempotent quiet live2 (fun _ => eq_refl)
              (fun _ => eq_refl)) as (Hok & Hrel & _ & _ & Hagain & _).
  split; [exact Hok|]. split; [exact Hrel|]. apply Hagain.
Defined.

End TeardownFacts.

(* ===================================================================== *)
(** ** The PCM codec                                                      *)
(* ===================================================================== *)

Module CodecFacts.

Import Codec WebAudio Pcm Service Scenario.

(** *** Truncation and the 16-bit wrap *)

Lemma truncate_scaled_range (q : Q) :
  -1 <= q -> q < 1 -> (-32768 <= truncate (q * 32768) <= 32767)%Z.
Proof.
  destruct q as [n d]. unfold Qle, Qlt, truncate. simpl.
  intros H1 H2. Z.to_euclidean_division_equations. nia.
Qed.

Lemma truncate_close (y : Q) : Qabs (inject_Z (truncate y) - y) < 1.
Proof.
  destruct y as [n d]. unfold truncate. simpl.
  apply Qabs_Qlt_condition.
  unfold Qlt, Qminus, Qplus, Qopp, inject_Z. simpl.
  Z.to_euclidean_division_equations. nia.
Qed.

Lemma wrap16_id (z : Z) : (-32768 <= z <= 32767)%Z -> wrap16 z = z.
Proof.
  intros H. unfold wrap16.
  destruct (Z_lt_dec _ _); Z.to_euclidean_division_equations; lia.
Qed.

Lemma wrap16_range (z : Z) : (-32768 <= wrap16 z <= 32767)%Z.
Proof.
  unfold wrap16.
  destruct (Z_lt_dec _ _); Z.to_euclidean_division_equations; lia.
Qed.

Lemma wrap16_congruent (z : Z) : (wrap16 z mod 65536 = z mod 65536)%Z.
Proof.
  unfold wrap16.
  destruct (Z_lt_dec _ _); Z.to_euclidean_division_equations; lia.
Qed.

Lemma clamp16_id (z : Z) : (-32768 <= z <= 32767)%Z -> clamp16 z = z.
Proof. unfold clamp16. lia. Qed.

Lemma quantize_finite (q : Q) :
  quantize (Fin q) = wrap16 (truncate (q * 32768)).
Proof. reflexivity. Qed.

(** *** Base64 and the typed-array views *)

Local Open Scope Z_scope.

Lemma list_ind3 {A} (P : list A -> Prop) :
  P [] -> (forall a, P [a]) -> (forall a b, P [a; b]) ->
  (forall a b c l, P l -> P (a :: b :: c :: l)) ->
  forall l, P l.
Proof.
  intros H0 H1 H2 H3.
  fix IH 1. intros [|a [|b [|c l]]].
  - exact H0.
  - apply H1.
  - apply H2.
  - apply H3, IH.
Qed.

Lemma btoa_groups_split bs :
  btoa_groups bs = map b64_char (sextets bs) ++ padding bs.
Proof.
  induction bs as [|a|a b|a b c l IH] using list_ind3; try reflexivity.
  cbn [btoa_groups sextets padding map app]. rewrite IH. reflexivity.
Qed.

Lemma sextets_range bs : Forall is_byte bs -> Forall is_sextet (sextets bs).
Proof.
  induction bs as [|a|a b|a b c l IH] using list_ind3; intros H.
  - constructor.
  - inversion_clear H as [|? ? Ha _]. unfold is_byte, is_sextet in *.
    repeat constructor; Z.to_euclidean_division_equations; lia.
  - inversion_clear H as [|? ? Ha H']. inversion_clear H' as [|? ? Hb _].
    unfold is_byte, is_sextet in *.
    repeat constructor; Z.to_euclidean_division_equations; lia.
  - inversion_clear H as [|? ? Ha H']. inversion_clear H' as [|? ? Hb H''].
    inversion_clear H'' as [|? ? Hc Hl].
    cbn [sextets]. unfold is_byte, is_sextet in *.
    repeat (constructor; [Z.to_euclidean_division_equations; lia|]).
    apply IH, Hl.
Qed.

Lemma atob_groups_sextets bs : Forall is_byte bs -> atob_groups (sextets bs) = bs.
Proof.
  induction bs as [|a|a b|a b c l IH] using list_ind3; intros H.
  - reflexivity.
  - inversion_clear H as [|? ? Ha _]. unfold is_byte in *. cbn.
    f_equal. Z.to_euclidean_division_equations; lia.
  - inversion_clear H as [|? ? Ha H']. inversion_clear H' as [|? ? Hb _].
    unfold is_byte in *. cbn.
    f_equal; [|f_equal]; Z.to_euclidean_division_equations; lia.
  - inversion_clear H as [|? ? Ha H']. inversion_clear H' as [|? ? Hb H''].
    inversion_clear H'' as [|? ? Hc Hl].
    cbn [sextets atob_groups]. rewrite (IH Hl). unfold is_byte in *.
    f_equal; [|f_equal; [|f_equal]]; Z.to_euclidean_division_equations; lia.
Qed.

Lemma alphabet_checked : forallb alphabet_ok (seq 0 64) = true.
Proof. vm_compute. reflexivity. Qed.

Lemma b64_char_facts v :
  is_sextet v ->
  b64_value (b64_char v) = Some v /\
  is_ascii_whitespace (b64_char v) = false /\
  Ascii.eqb (b64_char v) pad = false.
Proof.
  intros Hv. unfold is_sextet in Hv.
  pose proof alphabet_checked as H.
  rewrite forallb_forall in H.
  specialize (H (Z.to_nat v)).
  rewrite in_seq in H. specialize (H ltac:(lia)).
  unfold alphabet_ok in H. rewrite Z2Nat.id in H by lia.
  apply andb_prop in H as [H Hp]. apply andb_prop in H as [Hval Hws].
  destruct (b64_value (b64_char v)) as [w|]; [|discriminate].
  apply Z.eqb_eq in Hval. subst w.
  split; [reflexivity|].
  split; [apply negb_true_iff, Hws | apply negb_true_iff, Hp].
Qed.

Lemma mapM_b64_value vs :
  Forall is_sextet vs -> mapM b64_value (map b64_char vs) = Some vs.
Proof.
  induction 1 as [|v vs Hv _ IH]; [reflexivity|].
  cbn [map mapM]. destruct (b64_char_facts v Hv) as (-> & _ & _).
  cbn. rewrite IH. reflexivity.
Qed.

Lemma padding_cases bs :
  (padding bs = [] /\ (length (sextets bs) mod 4 = 0)%nat) \/
  (padding bs = [pad] /\ (length (sextets bs) mod 4 = 3)%nat) \/
  (padding bs = [pad; pad] /\ (length (sextets bs) mod 4 = 2)%nat).
Proof.
  induction bs as [|a|a b|a b c l IH] using list_ind3.
  - left. split; reflexivity.
  - right. right. split; reflexivity.
  - right. left. split; reflexivity.
  - cbn [padding sextets length].
    replace (S (S (S (S (length (sextets l)))))) with (length (sextets l) + 1 * 4)%nat by lia.
    rewrite Nat.Div0.mod_add. exact IH.
Qed.

Lemma filter_keeps (l : list ascii) :
  Forall (fun c => is_ascii_whitespace c = false) l ->
  filter (fun c => negb (is_ascii_whitespace c)) l = l.
Proof.
  induction 1 as [|c l Hc _ IH]; [reflexivity|].
  rewrite filter_cons. rewrite IH.
  destruct (decide _) as [_|Hn]; [reflexivity|].
  exfalso. apply Hn. rewrite Hc. reflexivity.
Qed.

Lemma strip_padding_body (body pads : list ascii) :
  Forall (fun c => Ascii.eqb c pad = false) body ->
  (length (body ++ pads) mod 4 = 0)%nat ->
  pads = [] \/ (body <> [] /\ (pads = [pad] \/ pads = [pad; pad])) ->
  strip_padding (body ++ pads) = body.
Proof.
  intros Hbody Hlen Hpads. unfold strip_padding.
  rewrite Hlen. cbn [Nat.eqb]. rewrite rev_app_distr.
  assert (Hlast : forall p r, rev body = p :: r -> Ascii.eqb p pad = false).
  { intros p r Hr. rewrite List.Forall_forall in Hbody. apply Hbody.
    apply in_rev. rewrite Hr. left. reflexivity. }
  destruct Hpads as [-> | [Hne [-> | ->]]].
  - rewrite app_nil_r. cbn [rev app].
    destruct (rev body) as [|p1 [|p2 r]] eqn:Hr; [reflexivity| |];
      rewrite (Hlast _ _ eq_refl); reflexivity.
  - change (rev [pad]) with [pad]. cbn [app].
    destruct (rev body) as [|p2 r] eqn:Hr.
    + exfalso. apply Hne. rewrite <- (rev_involutive body), Hr. reflexivity.
    + rewrite Ascii.eqb_refl, (Hlast _ _ eq_refl).
      rewrite <- Hr. apply rev_involutive.
  - change (rev [pad; pad]) with [pad; pad]. cbn [app].
    rewrite Ascii.eqb_refl. apply rev_involutive.
Qed.

Lemma atob_btoa_groups (bs : list Z) :
  Forall is_byte bs ->
  atob (string_of_list_ascii (btoa_groups bs))
  = Ok (string_of_list_ascii (map fromCharCode bs)).
Proof.
  intros Hbs. unfold atob.
  rewrite list_ascii_of_string_of_list_ascii, btoa_groups_split.
  pose proof (sextets_range bs Hbs) as Hsx.
  set (body := map b64_char (sextets bs)).
  assert (Hbody_pad : Forall (fun c => Ascii.eqb c pad = false) body).
  { subst body. apply List.Forall_forall. intros c Hc.
    apply in_map_iff in Hc as (v & <- & Hv).
    rewrite List.Forall_forall in Hsx. apply (b64_char_facts v (Hsx v Hv)). }
  assert (Hbody_ws : Forall (fun c => is_ascii_whitespace c = false) body).
  { subst body. apply List.Forall_forall. intros c Hc.
    apply in_map_iff in Hc as (v & <- & Hv).
    rewrite List.Forall_forall in Hsx. apply (b64_char_facts v (Hsx v Hv)). }
  assert (Hlen_body : length body = length (sextets bs)).
  { subst body. apply length_map. }
  assert (Hws : Forall (fun c => is_ascii_whitespace c = false) (body ++ padding bs)).
  { apply Forall_app. split; [exact Hbody_ws|].
    destruct (padding_cases bs) as [[-> _]|[[-> _]|[-> _]]]; repeat constructor. }
  rewrite (filter_keeps _ Hws).
  rewrite (strip_padding_body body (padding bs) Hbody_pad).
  - assert (Hmod : (length body mod 4 =? 1)%nat = false).
    { rewrite Hlen_body.
      destruct (padding_cases bs) as [[_ ->]|[[_ ->]|[_ ->]]]; reflexivity. }
    rewrite Hmod. subst body. rewrite (mapM_b64_value _ Hsx).
    rewrite (atob_groups_sextets bs Hbs). reflexivity.
  - rewrite length_app, Hlen_body.
    destruct (padding_cases bs) as [[-> H]|[[-> H]|[-> H]]]; cbn [length].
    + rewrite Nat.add_0_r. exact H.
    + rewrite <- (Nat.Div0.add_mod_idemp_l), H. reflexivity.
    + rewrite <- (Nat.Div0.add_mod_idemp_l), H. reflexivity.
  - destruct (padding_cases bs) as [[-> _]|[[-> H]|[-> H]]].
    + left. reflexivity.
    + right. split; [|left; reflexivity].
      intros Hnil. rewrite <- Hlen_body, Hnil in H. discriminate H.
    + right. split; [|right; reflexivity].
      intros Hnil. rewrite <- Hlen_body, Hnil in H. discriminate H.
Qed.

Lemma charCodeAt_byte c : is_byte (charCodeAt c).
Proof.
  unfold is_byte, charCodeAt. pose proof (N_ascii_bounded c). lia.
Qed.

Lemma fromCharCode_charCodeAt c : fromCharCode (charCodeAt c) = c.
Proof.
  unfold fromCharCode, charCodeAt. rewrite N2Z.id. apply ascii_N_embedding.
Qed.

Lemma charCodeAt_fromCharCode b : is_byte b -> charCodeAt (fromCharCode b) = b.
Proof.
  intros Hb. unfold is_byte in Hb. unfold fromCharCode, charCodeAt.
  rewrite N_ascii_embedding by lia. lia.
Qed.

(** [atob] inverts [btoa] on every string of bytes. *)
Theorem atob_btoa (s : string) : atob (btoa s) = Ok s.
Proof.
  unfold btoa. rewrite atob_btoa_groups.
  - rewrite map_map.
    rewrite (map_ext _ id) by (intros c; apply fromCharCode_charCodeAt).
    rewrite map_id. rewrite string_of_list_ascii_of_string. reflexivity.
  - apply List.Forall_forall. intros b Hb.
    apply in_map_iff in Hb as (c & <- & _). apply charCodeAt_byte.
Qed.

Lemma bytes_of_int16_bytes k : Forall is_byte (bytes_of_int16 k).
Proof.
  unfold bytes_of_int16, is_byte.
  repeat constructor; Z.to_euclidean_division_equations; lia.
Qed.

Lemma Uint8Array_bytes l : Forall is_byte (Uint8Array_of_Int16Array l).
Proof.
  induction l as [|k l IH]; [constructor|].
  unfold Uint8Array_of_Int16Array. cbn [flat_map].
  apply Forall_app. split; [apply bytes_of_int16_bytes | exact IH].
Qed.

Lemma Uint8Array_length l :
  length (Uint8Array_of_Int16Array l) = (2 * length l)%nat.
Proof.
  induction l as [|k l IH]; [reflexivity|].
  unfold Uint8Array_of_Int16Array in *. cbn [flat_map bytes_of_int16 app length].
  rewrite IH. lia.
Qed.

Lemma int16_pairs_bytes l :
  Forall is_int16 l -> int16_pairs (Uint8Array_of_Int16Array l) = l.
Proof.
  induction 1 as [|k l Hk _ IH]; [reflexivity|].
  unfold Uint8Array_of_Int16Array in *.
  cbn [flat_map bytes_of_int16 app int16_pairs]. rewrite IH. f_equal.
  unfold is_int16 in Hk.
  replace (k mod 65536 mod 256 + 256 * (k mod 65536 / 256)) with (k mod 65536)
    by (Z.to_euclidean_division_equations; lia).
  unfold wrap16. rewrite Z.mod_mod by lia.
  destruct (Z_lt_dec _ _); Z.to_euclidean_division_equations; lia.
Qed.

Lemma Int16Array_view_roundtrip l :
  Forall is_int16 l ->
  Int16Array_of_buffer (Uint8Array_of_Int16Array l) = Ok l.
Proof.
  intros Hl. unfold Int16Array_of_buffer.
  rewrite Uint8Array_length.
  replace (Nat.even (2 * length l)) with true.
  - rewrite (int16_pairs_bytes l Hl). reflexivity.
  - symmetry. apply Nat.even_spec. exists (length l). reflexivity.
Qed.

Lemma decode_encode bytes :
  Forall is_byte bytes -> decode (encode bytes) = Ok bytes.
Proof.
  intros Hb. unfold decode, encode. rewrite atob_btoa. cbn.
  rewrite list_ascii_of_string_of_list_ascii, map_map. f_equal.
  rewrite <- (map_id bytes) at 2. apply map_ext_in. intros b Hin.
  rewrite List.Forall_forall in Hb. apply charCodeAt_fromCharCode, Hb, Hin.
Qed.

(** Stores at 0 .. n-1 in order overwrite the first n cells. *)
Lemma fold_insert_prefix {A} (f : nat -> A) (d : list A) (k : nat) :
  (k <= length d)%nat ->
  fold_left (fun d i => <[i := f i]> d) (seq 0 k) d
  = map f (seq 0 k) ++ drop k d.
Proof.
  induction k as [|k IH]; intros Hk.
  - reflexivity.
  - rewrite seq_S, fold_left_app, map_app, IH by lia. cbn [fold_left map Nat.add].
    destruct (drop k d) as [|x rest] eqn:Hd.
    + exfalso. apply (f_equal length) in Hd. rewrite length_drop in Hd.
      cbn in Hd. lia.
    + rewrite insert_app_r_alt by (rewrite length_map, length_seq; lia).
      rewrite length_map, length_seq, Nat.sub_diag. cbn [insert list_insert].
      rewrite <- app_assoc. cbn [app]. f_equal. f_equal.
      replace (S k) with (k + 1)%nat by lia.
      rewrite <- drop_drop, Hd. reflexivity.
Qed.

Lemma fill_channel_mono (int16 : list Z) :
  fill_channel int16 1 (frames_of (length int16) 1) 0
               (replicate (length int16) (Fin 0))
  = map (fun k => div32768 (Some k)) int16.
Proof.
  unfold fill_channel, frames_of, trips.
  replace (Z.to_nat (Qceiling (Z.of_nat (length int16) # Pos.of_nat 1)))
    with (length int16).
  2:{ unfold Qceiling, Qfloor. cbn. rewrite Z.div_1_r. lia. }
  rewrite fold_insert_prefix by (rewrite length_replicate; lia).
  rewrite drop_ge by (rewrite length_replicate; lia).
  rewrite app_nil_r.
  apply list_eq. intros i.
  rewrite !list_lookup_fmap.
  destruct (decide (i < length int16)%nat) as [Hi|Hi].
  - rewrite lookup_seq_lt by lia. cbn.
    replace (i * 1 + 0)%nat with i by lia.
    destruct (lookup_lt_is_Some_2 int16 i Hi) as [k Hk]. rewrite Hk. reflexivity.
  - rewrite lookup_seq_ge by lia. rewrite lookup_ge_None_2 by lia. reflexivity.
Qed.

Local Open Scope Q_scope.

Lemma dequantize_close (q : Q) :
  Qabs (inject_Z (truncate (q * 32768)) / 32768 - q) < 1 # 32768.
Proof.
  pose proof (truncate_close (q * 32768)) as H.
  apply Qabs_Qlt_condition in H. apply Qabs_Qlt_condition.
  set (t := inject_Z (truncate (q * 32768))) in *.
  assert (Ht : t / 32768 == t * (1 # 32768)) by (unfold Qdiv; reflexivity).
  rewrite Ht. split; lra.
Qed.

Lemma createBuffer_mono ctx (n : nat) rate :
  (n <> 0)%nat -> (Z.of_nat n < 4294967296)%Z ->
  (1 <= maxChannels ctx)%nat ->
  minSampleRate ctx <= rate -> rate <= maxSampleRate ctx ->
  createBuffer ctx 1 (frames_of n 1) rate
  = Ok (mkBuffer 1 n rate [replicate n (Fin 0)]).
Proof.
  intros Hn Hbig Hch Hlo Hhi. unfold createBuffer, frames_of, ToUint32, truncate.
  cbn [Qnum Qden Pos.of_nat]. rewrite Z.quot_1_r.
  rewrite Z.mod_small by lia. rewrite Nat2Z.id.
  apply Qle_bool_iff in Hlo, Hhi. rewrite Hlo, Hhi.
  replace (maxChannels ctx <? 1)%nat with false
    by (symmetry; apply Nat.ltb_ge; lia).
  replace (n =? 0)%nat with false by (symmetry; apply Nat.eqb_neq; lia).
  reflexivity.
Qed.

(** *** Quantization *)

(** C9, the claim as stated fails: the sample [1.5] is stored as
    [-16384], where a clamp would store [32767]. *)
Lemma quantize_wraps_not_clamps :
  quantize (Fin (3 # 2)) = (-16384)%Z /\
  clamp16 (truncate ((3 # 2) * 32768)) = 32767%Z /\
  ~ (forall q : Q, quantize (Fin q) = clamp16 (truncate (q * 32768))).
Proof.
  split; [reflexivity|]. split; [reflexivity|].
  intros H. specialize (H (3 # 2)). discriminate H.
Qed.

(** C9, amended.  [createBlob] is a total function of the samples, one
    stored value per sample, always within the 16-bit range.  A [NaN]
    or an infinite sample is stored as [0].  A finite sample outside
    [-1, 1] is not clamped: what is stored is [trunc (x * 32768)]
    reduced modulo [2^16] to the signed range.  For [-1 <= x < 1] the
    stored value is [trunc (x * 32768)], where wrapping and clamping
    agree. *)
Theorem quantize_wraps :
  forall (samples : list number),
    (exists blob, createBlob samples = blob) /\
    (forall x, x ∈ samples -> (-32768 <= quantize x <= 32767)%Z) /\
    (forall x, x ∈ samples -> x = NaN \/ (exists neg, x = Infinity neg) ->
       quantize x = 0%Z) /\
    (forall q, Fin q ∈ samples -> q < -1 \/ 1 < q ->
       quantize (Fin q) = wrap16 (truncate (q * 32768)) /\
       (quantize (Fin q) mod 65536 = truncate (q * 32768) mod 65536)%Z) /\
    (forall q, Fin q ∈ samples -> -1 <= q -> q < 1 ->
       quantize (Fin q) = truncate (q * 32768) /\
       quantize (Fin q) = clamp16 (truncate (q * 32768))).
Proof.
  intros samples. split; [eexists; reflexivity|].
  split; [|split; [|split]].
  - intros [|neg|q] _; [unfold quantize; simpl; lia ..|].
    rewrite quantize_finite. apply wrap16_range.
  - intros x _ [-> | [neg ->]]; reflexivity.
  - intros q _ _. rewrite quantize_finite. split; [reflexivity|].
    apply wrap16_congruent.
  - intros q _ Hlo Hhi. rewrite quantize_finite.
    pose proof (truncate_scaled_range q Hlo Hhi) as Hr.
    rewrite (wrap16_id _ Hr), (clamp16_id _ Hr). split; reflexivity.
Qed.

Lemma quantize_wraps_witness :
  quantize (Fin (3 # 2)) = wrap16 (truncate ((3 # 2) * 32768)) /\
  quantize (Fin (1 # 2)) = clamp16 (truncate ((1 # 2) * 32768)) /\
  quantize NaN = 0%Z.
Proof.
  destruct (quantize_wraps [Fin (3 # 2); Fin (1 # 2); NaN])
    as (_ & _ & Hnan & Hout & Hin).
  split; [|split].
  - apply (Hout (3 # 2)); [repeat constructor | right; reflexivity].
  - apply (Hin (1 # 2)); [repeat constructor | discriminate | reflexivity].
  - apply (Hnan NaN); [repeat constructor | left; reflexivity].
Defined.

(** *** Malformed frames *)






(** *** The round trip *)

(** X2. The round trip below full scale: a buffer that is
    not empty, with every sample in [-1, 1), encoded by [createBlob] and
    decoded at one channel by a context that accepts the rate, comes
    back as one channel of the same length, every sample within
    [1/32768] of the original. *)
Theorem createBlob_decode_roundtrip :
  forall (qs : list Q) (ctx : AudioContext) (rate : Q),
    qs <> [] -> (Z.of_nat (length qs) < 4294967296)%Z ->
    Forall (fun q => -1 <= q /\ q < 1) qs ->
    (1 <= maxChannels ctx)%nat ->
    minSampleRate ctx <= rate -> rate <= maxSampleRate ctx ->
    (bytes ← decode (data (createBlob (map Fin qs)));
     decodeAudioData bytes ctx rate 1)
    = Ok (mkBuffer 1 (length qs) rate
            [map (fun q => Fin (inject_Z (truncate (q * 32768)) / 32768)) qs])
    /\ forall q, q ∈ qs ->
         Qabs (inject_Z (truncate (q * 32768)) / 32768 - q) < 1 # 32768.
Proof.
  intros qs ctx rate Hne Hbig Hrange Hch Hlo Hhi.
  split; [|intros q _; apply dequantize_close].
  unfold createBlob. cbn [data].
  set (ks := map quantize (map Fin qs)).
  assert (Hks : Forall is_int16 ks).
  { subst ks. apply List.Forall_forall. intros k Hk.
    apply in_map_iff in Hk as (x & <- & Hx).
    apply in_map_iff in Hx as (q & <- & Hq).
    rewrite List.Forall_forall in Hrange. destruct (Hrange q Hq) as [H1 H2].
    apply (truncate_scaled_range q H1) in H2.
    unfold is_int16. change (quantize (Fin q)) with (wrap16 (truncate (q * 32768))).
    rewrite wrap16_id; lia. }
  assert (Hlen : length ks = length qs).
  { subst ks. rewrite !length_map. reflexivity. }
  rewrite (decode_encode _ (Uint8Array_bytes ks)). cbn [mbind result_bind].
  unfold decodeAudioData.
  rewrite (Int16Array_view_roundtrip ks Hks). cbn [mbind result_bind].
  rewrite createBuffer_mono; [|rewrite Hlen; destruct qs; [contradiction|discriminate]
                              |rewrite Hlen; exact Hbig|assumption..].
  cbn [mbind result_bind mret result_ret seq fold_left numberOfChannels
       buf_length sampleRate channels alter list_alter].
  rewrite (fill_channel_mono ks). rewrite Hlen. f_equal. f_equal. f_equal.
  subst ks. rewrite !map_map. apply map_ext_in. intros q Hq.
  rewrite List.Forall_forall in Hrange. destruct (Hrange q Hq) as [H1 H2].
  apply (truncate_scaled_range q H1) in H2.
  change (quantize (Fin q)) with (wrap16 (truncate (q * 32768))).
  rewrite wrap16_id by lia. reflexivity.
Qed.

Lemma createBlob_decode_roundtrip_witness :
  (bytes ← decode (data (createBlob (map Fin [1 # 2; -1; 0])));
   decodeAudioData bytes ctx0 16000 1)
  = Ok (mkBuffer 1 3 16000
          [map (fun q => Fin (inject_Z (truncate (q * 32768)) / 32768))
               [1 # 2; -1; 0]]).
Proof.
  apply (createBlob_decode_roundtrip [1 # 2; -1; 0] ctx0 16000).
  - discriminate.
  - reflexivity.
  - repeat constructor; discriminate.
  - simpl. lia.
  - discriminate.
  - discriminate.
Defined.

(** *** The round trip at full scale *)

(** C3, at the sample [1.0]: [1.0 * 32768] is [32768], which an
    [Int16Array] stores as [-32768]; the frame is ["AIA="] and decodes
    to the one sample [-1], at distance [2] from the original, far more
    than [1/32768]. *)
Theorem roundtrip_full_scale_sign_flip :
  data (createBlob [Fin 1]) = "AIA="%string /\
  (bytes ← decode (data (createBlob [Fin 1]));
   decodeAudioData bytes ctx0 16000 1)
  = Ok (mkBuffer 1 1 16000 [[Fin (-32768 # 32768)]]) /\
  Qabs ((-32768 # 32768) - 1) == 2 /\
  ~ Qabs ((-32768 # 32768) - 1) <= 1 # 32768.
Proof.
  split; [reflexivity|]. split; [reflexivity|]. split; [reflexivity|].
  intros H. vm_compute in H. apply H. reflexivity.
Qed.

End CodecFacts.

(* ===================================================================== *)
(** ** More on the codec                                                  *)
(* ===================================================================== *)

Module CodecMore.

Import Codec WebAudio Pcm Service Scenario CodecFacts.









Lemma int16_sample_range (k : Z) :
  is_int16 k -> -1 <= inject_Z k / 32768 /\ inject_Z k / 32768 < 1.
Proof.
  unfold is_int16. intros Hk.
  unfold Qle, Qlt, Qdiv, Qmult, Qinv, inject_Z. cbn. lia.
Qed.



Lemma quantize_range (x : number) : is_int16 (quantize x).
Proof.
  unfold is_int16. destruct x as [|neg|q]; [unfold quantize; simpl; lia ..|].
  rewrite quantize_finite. apply wrap16_range.
Qed.

(** X5. Whatever the samples ([NaN], infinite or out of range
    included), the frame [createBlob] writes for a buffer that is not
    empty decodes: to twice as many bytes as samples, and at one
    channel to a buffer of the same length whose samples are the stored
    values over [32768], all in [-1, 1). *)
Theorem createBlob_frame_decodes :
  forall (samples : list number) (ctx : AudioContext) (rate : Q),
    samples <> [] -> (Z.of_nat (length samples) < 4294967296)%Z ->
    (1 <= maxChannels ctx)%nat ->
    minSampleRate ctx <= rate -> rate <= maxSampleRate ctx ->
    decode (data (createBlob samples))
      = Ok (Uint8Array_of_Int16Array (map quantize samples)) /\
    length (Uint8Array_of_Int16Array (map quantize samples))
      = (2 * length samples)%nat /\
    (bytes ← decode (data (createBlob samples));
     decodeAudioData bytes ctx rate 1)
      = Ok (mkBuffer 1 (length samples) rate
              [map (fun x => Fin (inject_Z (quantize x) / 32768)) samples]) /\
    forall x, x ∈ samples ->
      -1 <= inject_Z (quantize x) / 32768 /\
      inject_Z (quantize x) / 32768 < 1.
Proof.
  intros samples ctx rate Hne Hbig Hch Hlo Hhi.
  set (ks := map quantize samples).
  assert (Hks : Forall is_int16 ks).
  { subst ks. apply List.Forall_forall. intros k Hk.
    apply in_map_iff in Hk as (x & <- & _). apply quantize_range. }
  assert (Hlen : length ks = length samples) by (subst ks; apply length_map).
  assert (Hdec : decode (data (createBlob samples))
                 = Ok (Uint8Array_of_Int16Array ks)).
  { unfold createBlob. cbn [data]. apply decode_encode, Uint8Array_bytes. }
  split; [exact Hdec|].
  split; [rewrite Uint8Array_length, Hlen; reflexivity|].
  split; [|intros x _; apply int16_sample_range, quantize_range].
  rewrite Hdec. cbn [mbind result_bind]. unfold decodeAudioData.
  rewrite (Int16Array_view_roundtrip ks Hks). cbn [mbind result_bind].
  rewrite createBuffer_mono;
    [|rewrite Hlen; destruct samples; [contradiction|discriminate]
     |rewrite Hlen; exact Hbig|assumption..].
  cbn [mbind result_bind mret result_ret seq fold_left numberOfChannels
       buf_length sampleRate channels alter list_alter].
  rewrite (fill_channel_mono ks), Hlen. subst ks. rewrite map_map.
  reflexivity.
Qed.

(** The size of a frame: four characters for every three bytes. *)
Lemma btoa_groups_length (bs : list Z) :
  length (btoa_groups bs) = (4 * ((length bs + 2) / 3))%nat.
Proof.
  induction bs as [|a|a b|a b c l IH] using list_ind3; try reflexivity.
  cbn [btoa_groups length]. rewrite IH.
  replace (S (S (S (length l))) + 2)%nat with (1 * 3 + (length l + 2))%nat by lia.
  rewrite Nat.div_add_l by lia. lia.
Qed.

Lemma string_length_of_list (l : list ascii) :
  String.length (string_of_list_ascii l) = length l.
Proof. induction l as [|c l IH]; [reflexivity|]. cbn. rewrite IH. reflexivity. Qed.

(** X6. The frame of [n] samples is [4 * ceil (2 n / 3)] characters
    long, and its type is always ["audio/pcm;rate=16000"]. *)
Theorem createBlob_size :
  forall samples : list number,
    String.length (data (createBlob samples))
    = (4 * ((2 * length samples + 2) / 3))%nat /\
    mimeType (createBlob samples) = "audio/pcm;rate=16000"%string.
Proof.
  intros samples. split; [|reflexivity].
  unfold createBlob, encode, btoa. cbn [data].
  rewrite string_length_of_list, btoa_groups_length.
  rewrite list_ascii_of_string_of_list_ascii, !length_map.
  rewrite Uint8Array_length, length_map. reflexivity.
Qed.

(** X1. [decode] inverts [encode] on every array of bytes. *)
Theorem encode_decode_bytes :
  forall bytes : list Z,
    Forall is_byte bytes -> decode (encode bytes) = Ok bytes.
Proof. intros bytes Hb. apply decode_encode, Hb. Qed.

Lemma encode_decode_bytes_witness :
  decode (encode [0; 128; 255; 7]%Z) = Ok [0; 128; 255; 7]%Z.
Proof.
  apply encode_decode_bytes.
  repeat constructor; unfold is_byte; lia.
Defined.



Lemma createBlob_frame_decodes_witness :
  decode (data (createBlob [NaN; Fin (3 # 2); Infinity true]))
  = Ok (Uint8Array_of_Int16Array
          (map quantize [NaN; Fin (3 # 2); Infinity true])).
Proof.
  apply (createBlob_frame_decodes [NaN; Fin (3 # 2); Infinity true] ctx0 16000).
  - discriminate.
  - reflexivity.
  - simpl. lia.
  - discriminate.
  - discriminate.
Defined.

End CodecMore.

(* ===================================================================== *)
(** ** The life of a service                                              *)
(* ===================================================================== *)

Module SessionFacts.

Import Codec WebAudio Pcm Service Scenario Session SchedulerFacts TeardownFacts.

Lemma calm_refl s : calm s s.
Proof. split; [reflexivity|]. split; reflexivity. Qed.

Lemma calm_trans s1 s2 s3 : calm s1 s2 -> calm s2 s3 -> calm s1 s3.
Proof.
  intros (H1 & H2 & H3) (G1 & G2 & G3). split; [congruence|].
  split; [congruence|]. etrans; eassumption.
Qed.

Lemma calm_tracked s s' : calm s s' -> tracked s -> tracked s'.
Proof.
  intros (Hc & Ht & Hs) (T1 & T2 & T3). split; [rewrite Ht, Hc; exact T1|].
  split.
  - eapply sublist_NoDup; eassumption.
  - rewrite Hc. apply List.Forall_forall. intros id Hin.
    rewrite List.Forall_forall in T3. apply T3.
    apply list_elem_of_In. apply list_elem_of_In in Hin.
    eapply elem_of_sublist; eassumption.
Qed.

Lemma started_call c tr :
  started (c :: tr)
  = match c with SourceStart id _ => id :: started tr | _ => started tr end.
Proof. destruct c; reflexivity. Qed.

Lemma calm_fields s s' :
  created s' = created s -> trace s' = trace s ->
  activeAudioSources s' `sublist_of` activeAudioSources s -> calm s s'.
Proof. intros Hc Ht Ha. split; [exact Hc|]. split; [rewrite Ht; reflexivity|exact Ha]. Qed.

Lemma calm_advance dt s : calm s (advance dt s).
Proof. unfold advance. destruct (outputAudioContext s); apply calm_fields; reflexivity. Qed.

Lemma calm_connectLive stream ci co sess s : calm s (connectLive stream ci co sess s).
Proof. apply calm_fields; reflexivity. Qed.

Lemma calm_onended id s : calm s (onended id s).
Proof. apply calm_fields; try reflexivity. apply sublist_filter. Qed.

Lemma calm_call c s :
  (forall id t, c <> SourceStart id t) -> calm s (call c s).
Proof.
  intros Hc. split; [reflexivity|]. split; [|reflexivity].
  cbn [call trace]. rewrite started_call.
  destruct c; try reflexivity. exfalso. eapply Hc. reflexivity.
Qed.

Lemma calm_stopSources p s : calm s (stopSources p s).
Proof.
  unfold stopSources. rewrite stop_fold_eq.
  split; [reflexivity|]. split; [|reflexivity].
  cbn [trace]. unfold started. rewrite omap_app.
  replace (omap _ (rev (map SourceStop (activeAudioSources s)))) with (@nil SourceId);
    [reflexivity|].
  induction (activeAudioSources s) as [|x l IH]; [reflexivity|].
  cbn [map rev]. rewrite omap_app, <- IH. reflexivity.
Qed.

Lemma calm_emptied s : calm s (set_activeAudioSources [] s).
Proof. apply calm_fields; try reflexivity. apply sublist_nil_l. Qed.

Lemma calm_flush p s : calm s (flush p s).
Proof.
  unfold flush.
  eapply calm_trans; [apply (calm_stopSources p)|].
  eapply calm_trans; [apply calm_emptied|].
  apply calm_fields; reflexivity.
Qed.

Lemma calm_closeSession awaited s : calm s (closeSession awaited s).
Proof.
  destruct awaited as [[|e]|]; cbn [closeSession].
  - eapply calm_trans; [apply (calm_call SessionClose); discriminate|].
    apply calm_fields; reflexivity.
  - apply calm_fields; reflexivity.
  - apply calm_refl.
Qed.

Lemma calm_stopTracks p tracks : forall s, calm s (fst (stopTracks p tracks s)).
Proof.
  induction tracks as [|t tracks IH]; intros s; cbn [stopTracks].
  - apply calm_refl.
  - destruct (p (TrackStop t)).
    + apply calm_call. discriminate.
    + eapply calm_trans; [apply (calm_call (TrackStop t)); discriminate|apply IH].
Qed.

Lemma calm_closeContext p port s : calm s (fst (closeContext p port s)).
Proof.
  unfold closeContext.
  destruct (match port with Input => _ | Output => _ end); [|apply calm_refl].
  destruct (p (ContextClose port)).
  - apply calm_call. discriminate.
  - eapply calm_trans; [apply (calm_call (ContextClose port)); discriminate|].
    destruct port; apply calm_fields; reflexivity.
Qed.

Lemma calm_andThen s0 r k :
  calm s0 (fst r) -> (forall s, calm s0 s -> calm s0 (fst (k s))) ->
  calm s0 (fst (andThen r k)).
Proof.
  destruct r as [s [u|e]]; cbn [andThen fst]; intros Hr Hk; [apply Hk, Hr|exact Hr].
Qed.

Lemma calm_stopLive_resume p awaited s : calm s (fst (stopLive_resume p awaited s)).
Proof.
  unfold stopLive_resume.
  pose proof (calm_closeSession awaited s) as H0.
  set (s1 := closeSession awaited s) in *.
  apply calm_andThen.
  - destruct (micStream s1) as [tracks|]; [|exact H0].
    apply calm_andThen.
    + eapply calm_trans; [exact H0|apply calm_stopTracks].
    + intros s2 H2. cbn [fst]. eapply calm_trans; [exact H2|].
      apply calm_fields; reflexivity.
  - intros s2 H2.
    assert (H3 : calm s (set_activeAudioSources [] (stopSources p s2))).
    { eapply calm_trans; [exact H2|].
      eapply calm_trans; [apply (calm_stopSources p)|apply calm_emptied]. }
    apply calm_andThen.
    + eapply calm_trans; [exact H3|apply calm_closeContext].
    + intros s3 H4. eapply calm_trans; [exact H4|apply calm_closeContext].
Qed.

Lemma tracked_new : tracked newService.
Proof. split; [reflexivity|]. split; constructor. Qed.

Lemma tracked_playBuffered buffer s : tracked s -> tracked (playBuffered buffer s).
Proof.
  intros (T1 & T2 & T3). unfold playBuffered.
  destruct (outputAudioContext s) as [ctx|]; [|split; [exact T1|split; assumption]].
  unfold tracked.
  cbn [created trace activeAudioSources set_created set_scheduledTime call
       set_activeAudioSources scheduledTime].
  unfold set_add.
  assert (Hfresh : created s ∉ activeAudioSources s).
  { intros Hin. rewrite List.Forall_forall in T3.
    apply list_elem_of_In in Hin. specialize (T3 _ Hin). lia. }
  rewrite bool_decide_eq_false_2 by exact Hfresh.
  split; [|split].
  - rewrite started_call, T1, seq_S, rev_app_distr. reflexivity.
  - apply NoDup_app. split; [exact T2|]. split; [|apply NoDup_singleton].
    intros x Hx Hin. apply list_elem_of_singleton in Hin. subst x. contradiction.
  - apply Forall_app. split.
    + eapply Forall_impl; [exact T3|]. cbn. intros; lia.
    + constructor; [lia|constructor].
Qed.

Lemma tracked_onmessage p dt message s :
  tracked s -> tracked (fst (onmessage p dt message s)).
Proof.
  intros Ht. unfold onmessage.
  set (s1 := if interrupted message then flush p s else s).
  assert (H1 : tracked s1).
  { subst s1. destruct (interrupted message); [|exact Ht].
    eapply calm_tracked; [apply calm_flush|exact Ht]. }
  assert (Hcb : forall s', tracked s' -> tracked (call OnMessage s')).
  { intros s' H'. eapply calm_tracked; [|exact H'].
    apply calm_call. discriminate. }
  destruct (truthy_string (base64Audio message)) as [b64|]; [|apply Hcb, H1].
  destruct (outputAudioContext s1) as [ctx|]; [|apply Hcb, H1].
  destruct (bytes ← decode b64; decodeAudioData bytes ctx 24000 1)
    as [buffer|e]; [|exact H1].
  cbn [fst]. apply Hcb, tracked_playBuffered.
  eapply calm_tracked; [apply calm_advance|exact H1].
Qed.

Lemma tracked_speak segments ctxNew response dt s :
  tracked s -> tracked (fst (speakMultiVoiceSegments segments ctxNew response dt s)).
Proof.
  intros Ht. unfold speakMultiVoiceSegments.
  destruct segments as [|seg rest]; [exact Ht|].
  set (s1 := set_scheduledTime _ _).
  assert (H1 : tracked s1).
  { eapply calm_tracked; [|exact Ht]. apply calm_fields; reflexivity. }
  destruct response as [audio|e]; [|exact H1].
  destruct (truthy_string audio) as [b64|]; [|exact H1].
  assert (H2 : tracked (advance dt s1)).
  { eapply calm_tracked; [apply calm_advance|exact H1]. }
  destruct (bytes ← decode b64; decodeAudioData bytes _ 24000 1)
    as [buffer|e]; [|exact H2].
  apply tracked_playBuffered, H2.
Qed.

Lemma tracked_handle p s ev : tracked s -> tracked (handle p s ev).
Proof.
  intros Ht. destruct ev; cbn [handle].
  - eapply calm_tracked; [apply calm_connectLive|exact Ht].
  - apply tracked_speak, Ht.
  - apply tracked_onmessage, Ht.
  - eapply calm_tracked; [apply calm_onended|exact Ht].
  - eapply calm_tracked; [apply calm_advance|exact Ht].
  - eapply calm_tracked; [apply calm_stopLive_resume|exact Ht].
Qed.

Lemma history_tracked p evs : tracked (history p evs).
Proof.
  unfold history. generalize tracked_new. generalize newService.
  induction evs as [|ev evs IH]; intros s Hs; [exact Hs|].
  cbn [fold_left]. apply IH, tracked_handle, Hs.
Qed.

(** X7. Through any sequence of connects, one-shot plays, messages,
    ended callbacks, clock advances and teardowns, on any platform:
    the sources started are the sources created, each started once, in
    creation order; the active set has no source twice, and holds only
    sources that have been started. *)
Theorem sources_started_once :
  forall (p : Platform) (evs : list Event),
    started (trace (history p evs)) = rev (seq 0 (created (history p evs))) /\
    NoDup (started (trace (history p evs))) /\
    NoDup (activeAudioSources (history p evs)) /\
    (forall id, id ∈ activeAudioSources (history p evs) ->
                id ∈ started (trace (history p evs))).
Proof.
  intros p evs.
  destruct (history_tracked p evs) as (T1 & T2 & T3).
  split; [exact T1|]. split; [|split; [exact T2|]].
  - rewrite T1. apply NoDup_ListNoDup, List.NoDup_rev, List.seq_NoDup.
  - intros id Hin. rewrite T1. apply list_elem_of_In, in_rev.
    rewrite rev_involutive. apply in_seq.
    rewrite List.Forall_forall in T3. apply list_elem_of_In in Hin.
    specialize (T3 _ Hin). lia.
Qed.

Lemma filter_all {A} (P : A -> Prop) `{forall x, Decision (P x)} (l : list A) :
  Forall P l -> filter P l = l.
Proof.
  induction 1 as [|x l Hx _ IH]; [reflexivity|].
  rewrite filter_cons_True by exact Hx. rewrite IH. reflexivity.
Qed.

Lemma filter_none {A} (P : A -> Prop) `{forall x, Decision (P x)} (l : list A) :
  Forall (fun x => ~ P x) l -> filter P l = [].
Proof.
  induction 1 as [|x l Hx _ IH]; [reflexivity|].
  rewrite filter_cons_False by exact Hx. exact IH.
Qed.

Lemma fresh_source p evs :
  created (history p evs) ∉ activeAudioSources (history p evs).
Proof.
  destruct (history_tracked p evs) as (_ & _ & T3).
  intros Hin. rewrite List.Forall_forall in T3.
  apply list_elem_of_In in Hin. specialize (T3 _ Hin). lia.
Qed.

(** X8. In any state a service can reach, [playBuffered] puts the new
    source at the end of the active set, and the [onended] callback of
    that source takes it out again and leaves the set as it was. *)
Theorem onended_undoes_playBuffered :
  forall (p : Platform) (evs : list Event) (buffer : AudioBuffer)
         (ctx : AudioContext),
    outputAudioContext (history p evs) = Some ctx ->
    activeAudioSources (playBuffered buffer (history p evs))
      = activeAudioSources (history p evs) ++ [created (history p evs)] /\
    activeAudioSources
      (onended (created (history p evs)) (playBuffered buffer (history p evs)))
      = activeAudioSources (history p evs).
Proof.
  intros p evs buffer ctx Hctx.
  pose proof (fresh_source p evs) as Hfresh.
  set (s := history p evs) in *.
  assert (Hadd : activeAudioSources (playBuffered buffer s)
                 = activeAudioSources s ++ [created s]).
  { unfold playBuffered. rewrite Hctx.
    cbn [activeAudioSources set_activeAudioSources set_scheduledTime call
         set_created]. unfold set_add.
    rewrite bool_decide_eq_false_2 by exact Hfresh. reflexivity. }
  split; [exact Hadd|].
  unfold onended. cbn [activeAudioSources set_activeAudioSources].
  rewrite Hadd. unfold set_delete. rewrite filter_app.
  rewrite filter_all.
  - rewrite filter_none; [apply app_nil_r|].
    constructor; [|constructor]. intros Hne. apply Hne. reflexivity.
  - apply List.Forall_forall. intros y Hy Heq. subst y.
    apply Hfresh, list_elem_of_In, Hy.
Qed.

Lemma endAll_active ids : forall s,
  activeAudioSources (endAll ids s)
  = filter (fun y => y ∉ ids) (activeAudioSources s).
Proof.
  induction ids as [|id ids IH]; intros s; cbn [endAll fold_left].
  - symmetry. apply filter_all. apply List.Forall_forall.
    intros y _ Hy. inversion Hy.
  - change (fold_left _ ids (onended id s)) with (endAll ids (onended id s)).
    rewrite IH. cbn [onended activeAudioSources set_activeAudioSources].
    unfold set_delete. rewrite list_filter_filter.
    apply list_filter_iff. intros y. rewrite not_elem_of_cons. tauto.
Qed.

Lemma endAll_fields ids : forall s,
  trace (endAll ids s) = trace s /\
  scheduledTime (endAll ids s) = scheduledTime s.
Proof.
  induction ids as [|id ids IH]; intros s; [split; reflexivity|].
  cbn [endAll fold_left].
  change (fold_left _ ids (onended id s)) with (endAll ids (onended id s)).
  destruct (IH (onended id s)) as [-> ->]. split; reflexivity.
Qed.

(** X9. Once the [onended] callback of every active source has run, in
    whatever order and with whatever others, the active set is empty;
    the callbacks make no platform call and do not move the cursor. *)
Theorem all_ended_none_active :
  forall (ids : list SourceId) (s : GeminiService),
    (forall id, id ∈ activeAudioSources s -> id ∈ ids) ->
    activeAudioSources (endAll ids s) = [] /\
    trace (endAll ids s) = trace s /\
    scheduledTime (endAll ids s) = scheduledTime s.
Proof.
  intros ids s Hall. split; [|apply endAll_fields].
  rewrite endAll_active. apply filter_none.
  apply List.Forall_forall. intros y Hy Hn. apply Hn, Hall, list_elem_of_In, Hy.
Qed.

(** *** Cursor arithmetic *)

Lemma Qmax_le_r (x y : Q) : x <= y -> Qmax x y == y.
Proof. intros H. apply Q.max_r, H. Qed.

Lemma Qmax_ge_l (x y : Q) : y <= x -> Qmax x y = x.
Proof.
  intros H. destruct (Qmax_cases x y) as [[_ E]|[Hlt _]]; [exact E|].
  exfalso. apply (Qlt_not_le _ _ Hlt), H.
Qed.

Lemma playAll_context buffers : forall s ctx,
  outputAudioContext s = Some ctx ->
  outputAudioContext (playAll buffers s) = Some ctx.
Proof.
  induction buffers as [|b bs IH]; intros s ctx Hs; [exact Hs|].
  cbn [playAll fold_left]. apply IH, playBuffered_context, Hs.
Qed.

Lemma playAll_span buffers : forall s ctx,
  outputAudioContext s = Some ctx ->
  Forall (fun b => 0 <= duration b) buffers ->
  currentTime ctx <= scheduledTime s ->
  scheduledTime (playAll buffers s) == scheduledTime s + totalDuration buffers.
Proof.
  induction buffers as [|b bs IH]; intros s ctx Hs Hd Hle.
  - cbn. lra.
  - inversion_clear Hd as [|? ? Hb Hbs].
    cbn [playAll fold_left totalDuration fold_right].
    change (fold_left _ bs ?x) with (playAll bs x).
    rewrite (IH (playBuffered b s) ctx (playBuffered_context s ctx Hs b) Hbs).
    + rewrite (playBuffered_scheduledTime s ctx Hs b).
      rewrite (Qmax_ge_l _ _ Hle). change (fold_right _ 0 bs) with (totalDuration bs).
      lra.
    + rewrite (playBuffered_scheduledTime s ctx Hs b).
      rewrite (Qmax_ge_l _ _ Hle). lra.
Qed.

(** X10. Buffers of non-negative duration scheduled one after another
    with no time in between: the cursor ends at the first start,
    [max cursor clock], plus the sum of the durations. *)
Theorem playAll_total_span :
  forall (buffers : list AudioBuffer) (s : GeminiService) (ctx : AudioContext),
    outputAudioContext s = Some ctx ->
    Forall (fun b => 0 <= duration b) buffers ->
    scheduledTime (playAll buffers s)
    == match buffers with
       | [] => scheduledTime s
       | _ => Qmax (scheduledTime s) (currentTime ctx) + totalDuration buffers
       end.
Proof.
  intros buffers s ctx Hs Hd. destruct buffers as [|b bs]; [reflexivity|].
  inversion_clear Hd as [|? ? Hb Hbs].
  cbn [playAll fold_left totalDuration fold_right].
  change (fold_left _ bs ?x) with (playAll bs x).
  rewrite (playAll_span bs (playBuffered b s) ctx
             (playBuffered_context s ctx Hs b) Hbs).
  - rewrite (playBuffered_scheduledTime s ctx Hs b).
    change (fold_right _ 0 bs) with (totalDuration bs). lra.
  - rewrite (playBuffered_scheduledTime s ctx Hs b).
    pose proof (Q.le_max_r (scheduledTime s) (currentTime ctx)). lra.
Qed.

(** X11. No call of [playBuffered] hands [source.start] a time before
    the device clock it read. *)
Theorem never_started_in_the_past :
  forall (calls : list (Q * AudioBuffer)) (s : GeminiService) (r : Played),
    r ∈ playLog calls s -> calledAt r <= startedAt r.
Proof.
  induction calls as [|[dt buffer] rest IH]; intros s r Hin.
  - inversion Hin.
  - destruct (outputAudioContext s) as [ctx|] eqn:Hs.
    2:{ rewrite (playLog_no_context _ s Hs) in Hin. inversion Hin. }
    rewrite (playLog_cons s ctx Hs) in Hin.
    apply elem_of_cons in Hin as [-> | Hin].
    + cbn. apply Q.le_max_r.
    + eapply IH, Hin.
Qed.

(** X12. After an interruption flush the backlog is gone: the next
    buffer, scheduled [dt >= 0] later, starts at the device clock of
    that moment, and the cursor ends one duration further. *)
Theorem flush_then_play_starts_now :
  forall (p : Platform) (s : GeminiService) (ctx : AudioContext)
         (dt : Q) (buffer : AudioBuffer),
    outputAudioContext s = Some ctx -> 0 <= dt ->
    exists t,
      lastStart (playBuffered buffer (advance dt (flush p s))) = Some t /\
      t == currentTime ctx + dt /\
      scheduledTime (playBuffered buffer (advance dt (flush p s)))
        == currentTime ctx + dt + duration buffer.
Proof.
  intros p s ctx dt buffer Hs Hdt.
  pose proof (flush_context p s ctx Hs) as Hf.
  pose proof (flush_scheduledTime p s ctx Hs) as Ht.
  pose proof (advance_context _ _ Hf dt) as Ha.
  assert (Hmax : Qmax (scheduledTime (advance dt (flush p s))) (currentTime ctx + dt)
                 == currentTime ctx + dt).
  { apply Q.max_r. rewrite (advance_scheduledTime _ _ Hf dt), Ht, or_zero_eq. lra. }
  eexists. split; [apply (playBuffered_lastStart _ _ Ha)|].
  cbn [currentTime]. split; [exact Hmax|].
  rewrite (playBuffered_scheduledTime _ _ Ha). cbn [currentTime].
  rewrite Hmax. reflexivity.
Qed.

(** *** Late messages *)

Lemma onmessage_no_context p dt message s :
  outputAudioContext s = None ->
  onmessage p dt message s
  = (call OnMessage (if interrupted message then flush p s else s), Ok tt).
Proof.
  intros Hs. unfold onmessage.
  assert (H1 : outputAudioContext (if interrupted message then flush p s else s) = None).
  { destruct (interrupted message); [|exact Hs].
    unfold flush. simpl. destruct (stopSources_fields p s) as (_ & _ & -> & _).
    exact Hs. }
  rewrite H1. destruct (truthy_string (base64Audio message)); reflexivity.
Qed.

Lemma forwarded_call c tr :
  forwarded (c :: tr)
  = match c with OnMessage => S (forwarded tr) | _ => forwarded tr end.
Proof. destruct c; reflexivity. Qed.

Lemma forwarded_stops l tr :
  forwarded (rev (map SourceStop l) ++ tr) = forwarded tr.
Proof.
  unfold forwarded. rewrite omap_app, length_app.
  replace (omap _ (rev (map SourceStop l))) with (@nil unit); [reflexivity|].
  induction l as [|x l IH]; [reflexivity|].
  cbn [map rev]. rewrite omap_app, <- IH. reflexivity.
Qed.

(** X13. Without an output context (before the first session, after a
    teardown) messages start nothing and never fail: every handler run
    completes, no source is created or started, the context stays
    absent, and every message is still forwarded to the caller's
    [onMessage]. *)
Theorem late_messages_play_nothing :
  forall (p : Platform) (msgs : list (Q * LiveServerMessage))
         (s : GeminiService),
    outputAudioContext s = None ->
    outputAudioContext (fst (deliver p msgs s)) = None /\
    started (trace (fst (deliver p msgs s))) = started (trace s) /\
    created (fst (deliver p msgs s)) = created s /\
    snd (deliver p msgs s) = map (fun _ => Ok tt) msgs /\
    forwarded (trace (fst (deliver p msgs s)))
      = (length msgs + forwarded (trace s))%nat.
Proof.
  intros p msgs. induction msgs as [|[dt m] rest IH]; intros s Hs.
  - cbn [deliver fst snd map length]. repeat split; try reflexivity. exact Hs.
  - cbn [deliver]. rewrite (onmessage_no_context p dt m s Hs).
    set (s1 := call OnMessage (if interrupted m then flush p s else s)).
    assert (H1 : outputAudioContext s1 = None).
    { subst s1. cbn [call outputAudioContext].
      destruct (interrupted m); [|exact Hs].
      unfold flush. simpl. destruct (stopSources_fields p s) as (_ & _ & -> & _).
      exact Hs. }
    assert (Hcalm : calm s s1).
    { subst s1. eapply calm_trans; [|apply calm_call; discriminate].
      destruct (interrupted m); [apply calm_flush|apply calm_refl]. }
    assert (Hfw : forwarded (trace s1) = S (forwarded (trace s))).
    { subst s1. cbn [call trace]. rewrite forwarded_call.
      destruct (interrupted m); [|reflexivity].
      unfold flush. cbn [trace set_scheduledTime set_activeAudioSources].
      rewrite stopSources_trace, forwarded_stops. reflexivity. }
    specialize (IH s1 H1). destruct (deliver p rest s1) as [s2 rs].
    cbn [fst snd] in *. destruct IH as (I1 & I2 & I3 & I4 & I5).
    destruct Hcalm as (C1 & C2 & _).
    split; [exact I1|]. split; [congruence|]. split; [congruence|].
    split; [cbn [map]; rewrite I4; reflexivity|].
    rewrite I5, Hfw. cbn [length]. lia.
Qed.

(** *** Teardown, whatever fails *)

Lemma after_refl s : after s s.
Proof. split; [reflexivity|]. split; [reflexivity|]. exists []. reflexivity. Qed.

Lemma after_trans s1 s2 s3 : after s1 s2 -> after s2 s3 -> after s1 s3.
Proof.
  intros (A1 & A2 & l1 & A3) (B1 & B2 & l2 & B3).
  split; [congruence|]. split; [congruence|].
  exists (l2 ++ l1). rewrite B3, A3, app_assoc. reflexivity.
Qed.

Lemma after_call c s : after s (call c s).
Proof. split; [reflexivity|]. split; [reflexivity|]. exists [c]. reflexivity. Qed.

Lemma after_fields s s' :
  activeSession s' = activeSession s -> scheduledTime s' = scheduledTime s ->
  trace s' = trace s -> after s s'.
Proof. intros H1 H2 H3. split; [exact H1|]. split; [exact H2|]. exists []. exact H3. Qed.

Lemma after_stopSources p s : after s (stopSources p s).
Proof.
  unfold stopSources. rewrite stop_fold_eq.
  split; [reflexivity|]. split; [reflexivity|]. eexists. reflexivity.
Qed.

Lemma after_stopTracks p tracks : forall s, after s (fst (stopTracks p tracks s)).
Proof.
  induction tracks as [|t tracks IH]; intros s; cbn [stopTracks].
  - apply after_refl.
  - destruct (p (TrackStop t)); [apply after_call|].
    eapply after_trans; [apply after_call|apply IH].
Qed.

Lemma after_closeContext p port s : after s (fst (closeContext p port s)).
Proof.
  unfold closeContext.
  destruct (match port with Input => _ | Output => _ end); [|apply after_refl].
  destruct (p (ContextClose port)); [apply after_call|].
  eapply after_trans; [apply after_call|].
  destruct port; apply after_fields; reflexivity.
Qed.

Lemma after_andThen s0 r k :
  after s0 (fst r) -> (forall s, after s0 s -> after s0 (fst (k s))) ->
  after s0 (fst (andThen r k)).
Proof.
  destruct r as [s [u|e]]; cbn [andThen fst]; intros Hr Hk; [apply Hk, Hr|exact Hr].
Qed.

Lemma after_closeSession_rest p awaited s :
  after (closeSession awaited s) (fst (stopLive_resume p awaited s)).
Proof.
  unfold stopLive_resume. set (s1 := closeSession awaited s).
  apply after_andThen.
  - destruct (micStream s1) as [tracks|]; [|apply after_refl].
    apply after_andThen; [apply after_stopTracks|].
    intros s2 H2. cbn [fst]. eapply after_trans; [exact H2|].
    apply after_fields; reflexivity.
  - intros s2 H2.
    assert (H3 : after s1 (set_activeAudioSources [] (stopSources p s2))).
    { eapply after_trans; [exact H2|].
      eapply after_trans; [apply (after_stopSources p)|].
      apply after_fields; reflexivity. }
    apply after_andThen.
    + eapply after_trans; [exact H3|apply after_closeContext].
    + intros s3 H4. eapply after_trans; [exact H4|apply after_closeContext].
Qed.

(** X14. Whatever the platform answers, [stopLive] ends with the
    session handle dropped, with the channel close attempted when the
    session promise had fulfilled, and without starting a source,
    creating one or moving the cursor. *)
Theorem stopLive_drops_session :
  forall (p : Platform) (s : GeminiService),
    activeSession (fst (stopLive p s)) = None /\
    (activeSession s = Some Fulfilled ->
       SessionClose ∈ trace (fst (stopLive p s))) /\
    scheduledTime (fst (stopLive p s)) = scheduledTime s /\
    created (fst (stopLive p s)) = created s /\
    started (trace (fst (stopLive p s))) = started (trace s).
Proof.
  intros p s. unfold stopLive.
  destruct (after_closeSession_rest p (activeSession s) s) as (A1 & A2 & calls & A3).
  destruct (calm_stopLive_resume p (activeSession s) s) as (C1 & C2 & _).
  split; [|split; [|split; [|split]]].
  - rewrite A1. destruct (activeSession s) as [[|e]|] eqn:E; cbn; try reflexivity.
    exact E.
  - intros Hf. rewrite A3, Hf. cbn [closeSession].
    apply elem_of_app. right. cbn. left.
  - rewrite A2. destruct (activeSession s) as [[|e]|]; reflexivity.
  - exact C1.
  - exact C2.
Qed.

(** X15. The one-shot player, given segments and an audio payload that
    decodes: it makes one platform call, the start of one new source,
    at the device clock of that moment ([dt >= 0] after the context was
    made); the cursor ends one duration later, the source joins the
    active set, and the input context and the session are untouched;
    the context it replaced is not closed. *)
Theorem speak_plays_once_at_once :
  forall (seg : AudioSegment) (rest : list AudioSegment)
         (ctxNew : AudioContext) (dt : Q) (s : GeminiService)
         (audio : option string) (b64 : string) (bytes : list Z)
         (buffer : AudioBuffer),
    truthy_string audio = Some b64 ->
    decode b64 = Ok bytes ->
    decodeAudioData bytes
      (mkContext (currentTime ctxNew + dt) (maxChannels ctxNew)
                 (minSampleRate ctxNew) (maxSampleRate ctxNew)) 24000 1
      = Ok buffer ->
    0 <= dt ->
    exists s' t,
      speakMultiVoiceSegments (seg :: rest) ctxNew (Ok audio) dt s = (s', Ok tt) /\
      trace s' = SourceStart (created s) t :: trace s /\
      t == currentTime ctxNew + dt /\
      scheduledTime s' == currentTime ctxNew + dt + duration buffer /\
      activeAudioSources s' = set_add (created s) (activeAudioSources s) /\
      inputAudioContext s' = inputAudioContext s /\
      activeSession s' = activeSession s.
Proof.
  intros seg rest ctxNew dt s audio b64 bytes buffer Ha Hd Hb Hdt.
  unfold speakMultiVoiceSegments. rewrite Ha.
  unfold advance.
  cbn [set_scheduledTime set_outputAudioContext outputAudioContext
       default from_option currentTime maxChannels minSampleRate maxSampleRate].
  rewrite Hd. cbn [mbind result_bind]. unfold id. rewrite Hb.
  eexists _, _. split; [reflexivity|].
  unfold playBuffered.
  cbn [outputAudioContext set_outputAudioContext set_created set_scheduledTime
       call set_activeAudioSources trace scheduledTime created activeAudioSources
       currentTime inputAudioContext activeSession].
  split; [reflexivity|].
  assert (Hmax : Qmax (currentTime ctxNew) (currentTime ctxNew + dt)
                 == currentTime ctxNew + dt) by (apply Q.max_r; lra).
  split; [exact Hmax|]. split; [rewrite Hmax; reflexivity|].
  repeat split.
Qed.

Lemma onended_undoes_playBuffered_witness :
  activeAudioSources
    (onended (created (history quiet [Connect [0%nat] ctx0 ctx0 Fulfilled]))
       (playBuffered tiny (history quiet [Connect [0%nat] ctx0 ctx0 Fulfilled])))
  = activeAudioSources (history quiet [Connect [0%nat] ctx0 ctx0 Fulfilled]).
Proof.
  apply (onended_undoes_playBuffered quiet [Connect [0%nat] ctx0 ctx0 Fulfilled]
           tiny ctx0 eq_refl).
Defined.

Lemma all_ended_none_active_witness :
  activeAudioSources (endAll [1; 0; 7]%nat live2) = [].
Proof.
  apply (all_ended_none_active [1; 0; 7]%nat live2).
  intros id Hin. apply list_elem_of_In in Hin. apply list_elem_of_In.
  destruct Hin as [<- | [<- | []]]; simpl; auto.
Defined.

Lemma playAll_total_span_witness :
  scheduledTime (playAll [tiny; tiny; tiny] live0)
  == Qmax (scheduledTime live0) (currentTime ctx0)
     + totalDuration [tiny; tiny; tiny].
Proof.
  apply (playAll_total_span [tiny; tiny; tiny] live0 ctx0 eq_refl).
  repeat constructor; discriminate.
Defined.

Lemma never_started_in_the_past_witness :
  calledAt (mkPlayed 1 1 (2 # 24000)) <= startedAt (mkPlayed 1 1 (2 # 24000)).
Proof.
  apply (never_started_in_the_past [(0, tiny); (1, tiny)] live0).
  apply list_elem_of_In. right. left. reflexivity.
Defined.

Lemma flush_then_play_starts_now_witness :
  exists t,
    lastStart (playBuffered tiny (advance 1 (flush quiet live2))) = Some t /\
    t == 0 + 1.
Proof.
  destruct (flush_then_play_starts_now quiet live2 ctx0 1 tiny eq_refl)
    as (t & Ht & Heq & _); [discriminate|].
  exists t. split; [exact Ht | exact Heq].
Defined.

Lemma late_messages_play_nothing_witness :
  started (trace (fst (deliver quiet
                         [(0, mkMessage true (Some "AIA="%string))]
                         (fst (stopLive quiet live2)))))
  = started (trace (fst (stopLive quiet live2))).
Proof.
  apply (late_messages_play_nothing quiet
           [(0, mkMessage true (Some "AIA="%string))]
           (fst (stopLive quiet live2)) eq_refl).
Defined.

Lemma stopLive_drops_session_witness :
  activeSession (fst (stopLive stuckTrack live2)) = None /\
  SessionClose ∈ trace (fst (stopLive stuckTrack live2)).
Proof.
  destruct (stopLive_drops_session stuckTrack live2) as (Hnone & Hclose & _).
  split; [exact Hnone | apply Hclose; reflexivity].
Defined.

Lemma speak_plays_once_at_once_witness :
  exists s' t,
    speakMultiVoiceSegments
      [mkSegment "s1" "Hello." "narrator" "c1"] ctx0
      (Ok (Some "AIA="%string)) 1 newService = (s', Ok tt) /\
    trace s' = SourceStart (created newService) t :: trace newService.
Proof.
  destruct (speak_plays_once_at_once
              (mkSegment "s1" "Hello." "narrator" "c1") [] ctx0 1 newService
              (Some "AIA="%string) "AIA="%string [0; 128]%Z
              (mkBuffer 1 1 24000 [[Fin (-32768 # 32768)]])
              eq_refl eq_refl eq_refl)
    as (s' & t & Hrun & Htrace & _); [discriminate|].
  exists s', t. split; [exact Hrun | exact Htrace].
Defined.

End SessionFacts.

(* ===================================================================== *)
(** ** More on the phase machine                                          *)
(* ===================================================================== *)

Module PhaseMore.

Import Phase Dispatch PhaseFacts.

Lemma dispatchAll_app l1 l2 s :
  dispatchAll (l1 ++ l2) s = dispatchAll l2 (dispatchAll l1 s).
Proof. unfold dispatchAll. apply fold_left_app. Qed.

Ltac overlap H :=
  exfalso;
  first [ solve [apply (H f_phase); repeat constructor]
        | solve [apply (H f_intensity); repeat constructor]
        | solve [apply (H f_confidence); repeat constructor]
        | solve [apply (H f_interruptible); repeat constructor]
        | solve [apply (H f_transcript); repeat constructor]
        | solve [apply (H f_partialTranscript); repeat constructor]
        | solve [apply (H f_synthesisProgress); repeat constructor]
        | solve [apply (H f_lastUtteranceTs); repeat constructor] ].

Ltac missing_at H f :=
  let Hin := fresh in
  assert (Hin := H f ltac:(repeat constructor));
  apply list_elem_of_In in Hin; simpl in Hin; intuition discriminate.

Ltac missing H :=
  exfalso;
  first [ solve [missing_at H f_phase]
        | solve [missing_at H f_intensity]
        | solve [missing_at H f_confidence]
        | solve [missing_at H f_interruptible]
        | solve [missing_at H f_transcript]
        | solve [missing_at H f_partialTranscript]
        | solve [missing_at H f_synthesisProgress]
        | solve [missing_at H f_lastUtteranceTs] ].

(** X16. Signals overwrite and never accumulate.  Two signals that
    write no field in common can be dispatched in either order; after a
    signal, one that writes at least the same fields erases it (so
    every signal is idempotent, and of two payloads for one field the
    later wins); [SIGNAL_INTERRUPT] is the sequence phase explaining,
    intensity zero, empty partial transcript; and a [SIGNAL_RESET] at
    the end of any sequence gives the initial state. *)
Theorem signals_overwrite :
  forall (s : IntelligenceState) (a b : IntelligenceAction),
    ((forall f, f ∈ writes a -> f ∉ writes b) ->
       intelligenceReducer (intelligenceReducer s a) b
       = intelligenceReducer (intelligenceReducer s b) a) /\
    ((forall f, f ∈ writes a -> f ∈ writes b) ->
       intelligenceReducer (intelligenceReducer s a) b
       = intelligenceReducer s b) /\
    intelligenceReducer s SIGNAL_INTERRUPT
    = dispatchAll [SIGNAL_PHASE explaining; SIGNAL_INTENSITY (Fin 0);
                   SIGNAL_TRANSCRIPT EmptyString (Some true)] s /\
    (forall actions,
       dispatchAll (actions ++ [SIGNAL_RESET]) s = initialIntelligenceState).
Proof.
  intros s a b. split; [|split; [|split; [reflexivity|]]].
  3:{ intros actions. rewrite dispatchAll_app. reflexivity. }
  - intros H.
    destruct a as [p|v|v|t [[|]|]|v| |], b as [p'|v'|v'|t' [[|]|]|v'| |];
      cbn in H; first [reflexivity | overlap H].
  - intros H.
    destruct a as [p|v|v|t [[|]|]|v| |], b as [p'|v'|v'|t' [[|]|]|v'| |];
      cbn in H; first [reflexivity | missing H].
Qed.

Lemma shown_initial : shown initialIntelligenceState.
Proof.
  split; [discriminate|]. split; [left; reflexivity|]. repeat split.
Qed.

Lemma shown_step s a : dispatched a -> shown s -> shown (intelligenceReducer s a).
Proof.
  intros Ha (H1 & H2 & H3 & H4 & H5 & H6).
  destruct a as [p|v|v|t f|v| |]; cbn in Ha; try contradiction.
  - split; [|split; [exact H2|repeat split; assumption]].
    cbn. intuition (subst; discriminate).
  - split; [exact H1|]. split; [right; exact Ha|repeat split; assumption].
  - apply shown_initial.
Qed.

(** X17. The application dispatches phases, intensities and resets
    only.  Under any sequence of the signals it dispatches the phase is
    never [error], the intensity is zero or one of the five dispatched
    values, and confidence, both transcripts and the synthesis progress
    keep their initial values. *)
Theorem only_dispatched_signals :
  forall actions : list IntelligenceAction,
    Forall dispatched actions ->
    shown (dispatchAll actions initialIntelligenceState).
Proof.
  intros actions. generalize shown_initial. generalize initialIntelligenceState.
  induction actions as [|a actions IH]; intros s Hs Hall; [exact Hs|].
  inversion_clear Hall as [|? ? Ha Hrest].
  cbn [dispatchAll fold_left]. apply IH; [apply shown_step; assumption|exact Hrest].
Qed.

Lemma signals_overwrite_witness :
  intelligenceReducer
    (intelligenceReducer initialIntelligenceState (SIGNAL_PHASE listening))
    (SIGNAL_INTENSITY (Fin 1))
  = intelligenceReducer
      (intelligenceReducer initialIntelligenceState (SIGNAL_INTENSITY (Fin 1)))
      (SIGNAL_PHASE listening).
Proof.
  destruct (signals_overwrite initialIntelligenceState
              (SIGNAL_PHASE listening) (SIGNAL_INTENSITY (Fin 1))) as [Hc _].
  apply Hc. intros f Hf Hb.
  apply list_elem_of_In in Hf, Hb. simpl in Hf, Hb.
  destruct Hf as [<-|[]]. destruct Hb as [Hb|[]]. discriminate Hb.
Defined.

Lemma only_dispatched_signals_witness :
  shown (dispatchAll [SIGNAL_PHASE listening; SIGNAL_INTENSITY (Fin (8 # 10));
                      SIGNAL_PHASE explaining]
                     initialIntelligenceState).
Proof.
  apply only_dispatched_signals.
  constructor; [cbn; right; left; reflexivity|].
  constructor; [cbn; right; left; reflexivity|].
  constructor; [cbn; right; right; left; reflexivity|].
  constructor.
Defined.

End PhaseMore.

(* ===================================================================== *)
(** ** The notebook state and its storage                                 *)
(* ===================================================================== *)

Module VaultFacts.

Import Vault.

(** X18. The storage service.  A store with no item, or with the empty
    string, under the key loads as the empty state, without parsing;
    so does any store after [clear], whatever was saved.  After
    [saveState] the load is the parse of what was stringified (when
    that is not the empty string); a second save replaces the first;
    and neither [saveState] nor [clear] touches another key. *)
Theorem storage_laws :
  forall (stringify : AppState -> string) (parse : string -> option AppState)
         (store : gmap string string) (st st' : AppState),
    (store !! STORAGE_KEY = None \/ store !! STORAGE_KEY = Some EmptyString ->
       loadState parse store = Some emptyState) /\
    loadState parse (clear store) = Some emptyState /\
    loadState parse (clear (saveState stringify st store)) = Some emptyState /\
    (stringify st <> EmptyString ->
       loadState parse (saveState stringify st store) = parse (stringify st)) /\
    saveState stringify st' (saveState stringify st store)
      = saveState stringify st' store /\
    (forall k, k <> STORAGE_KEY ->
       saveState stringify st store !! k = store !! k /\
       clear store !! k = store !! k).
Proof.
  intros stringify parse store st st'.
  split; [|split; [|split; [|split; [|split]]]].
  - unfold loadState. intros [-> | ->]; reflexivity.
  - unfold loadState, clear. rewrite lookup_delete_eq. reflexivity.
  - unfold loadState, clear. rewrite lookup_delete_eq. reflexivity.
  - intros Hne. unfold loadState, saveState. rewrite lookup_insert_eq.
    destruct (stringify st); [contradiction|reflexivity].
  - unfold saveState. apply insert_insert_eq.
  - intros k Hk. unfold saveState, clear.
    rewrite lookup_insert_ne, lookup_delete_ne by congruence. split; reflexivity.
Qed.

Lemma active_id_of_notebook st nb :
  activeNotebook st = Some nb -> activeNotebookId st = Some (nb_id nb).
Proof.
  unfold activeNotebook. intros H.
  destruct (list_find _ _) as [[i n]|] eqn:E; [|discriminate].
  cbn in H. injection H as ->. apply list_find_Some in E as (_ & Hn & _).
  exact Hn.
Qed.

Lemma filter_imap_all {A B} (P : B -> Prop) `{forall x, Decision (P x)}
    (f : nat -> A -> B) (l : list A) :
  (forall k x, P (f k x)) -> filter P (imap f l) = imap f l.
Proof.
  intros Hf. revert f Hf. induction l as [|x l IH]; intros f Hf; [reflexivity|].
  cbn [imap]. rewrite filter_cons_True by apply Hf. f_equal. apply IH.
  intros k y. apply Hf.
Qed.

Lemma filter_imap_none {A B} (P : B -> Prop) `{forall x, Decision (P x)}
    (f : nat -> A -> B) (l : list A) :
  (forall k x, ~ P (f k x)) -> filter P (imap f l) = [].
Proof.
  intros Hf. revert f Hf. induction l as [|x l IH]; intros f Hf; [reflexivity|].
  cbn [imap]. rewrite filter_cons_False by apply Hf. apply IH.
  intros k y. apply Hf.
Qed.

Lemma pick_length (selected : gset nat) (idx : list nat) :
  forall rs : list DiscoveryResult,
    length idx = length rs ->
    length (filter (fun ir : nat * DiscoveryResult => ir.1 ∈ selected) (zip idx rs))
    = length (filter (fun i => i ∈ selected) idx).
Proof.
  induction idx as [|i idx IH]; intros [|r rs] Hl; try discriminate; [reflexivity|].
  cbn [zip zip_with]. rewrite !filter_cons. cbn [fst].
  destruct (decide (i ∈ selected)); cbn [length]; rewrite IH by (cbn in Hl; lia);
    reflexivity.
Qed.

(** X19. [handleImportDiscovery] with an active notebook: the sources
    it builds, one per selected index within the results, are appended
    to the sources and to the library of the active notebook, in
    order; the library of every other notebook, the notebooks, the
    selection and the messages are as before. *)
Theorem import_lands_in_active_notebook :
  forall (uuid : nat -> string) (clock : nat -> number)
         (results : list DiscoveryResult) (selected : gset nat)
         (st : AppState) (nb : Notebook),
    activeNotebook st = Some nb ->
    sources (handleImportDiscovery uuid clock results selected st)
      = sources st ++ importedSources uuid clock results selected nb /\
    activeSources (handleImportDiscovery uuid clock results selected st)
      = activeSources st ++ importedSources uuid clock results selected nb /\
    length (importedSources uuid clock results selected nb)
      = length (filter (fun i => i ∈ selected) (seq 0 (length results))) /\
    (forall other, other <> nb_id nb ->
       filter (fun s => src_notebookId s = other)
              (sources (handleImportDiscovery uuid clock results selected st))
       = filter (fun s => src_notebookId s = other) (sources st)) /\
    notebooks (handleImportDiscovery uuid clock results selected st)
      = notebooks st /\
    activeNotebookId (handleImportDiscovery uuid clock results selected st)
      = activeNotebookId st /\
    messages (handleImportDiscovery uuid clock results selected st)
      = messages st.
Proof.
  intros uuid clock results selected st nb Hnb.
  pose proof (active_id_of_notebook st nb Hnb) as Hid.
  unfold handleImportDiscovery. rewrite Hnb.
  cbn [sources notebooks activeNotebookId messages].
  split; [reflexivity|]. split; [|split; [|split; [|repeat split]]].
  - unfold activeSources. cbn [sources]. rewrite filter_app. f_equal.
    unfold importedSources. apply filter_imap_all.
    intros k x. unfold is_active. cbn. exact Hid.
  - unfold importedSources, pick. rewrite length_imap.
    apply pick_length. rewrite length_seq. reflexivity.
  - intros other Hother. rewrite filter_app.
    unfold importedSources. rewrite filter_imap_none; [apply app_nil_r|].
    intros k x. cbn. congruence.
Qed.

(** X20. [handleAddNotebook] appends the notebook and selects it: the
    active notebook afterwards has the new id; it is the new notebook
    itself when no earlier notebook has that id, and its library is
    empty when no source carries that id.  Sources and messages are
    untouched. *)
Theorem new_notebook_becomes_active :
  forall (id : string) (now : number) (name : string) (st : AppState),
    notebooks (handleAddNotebook id now name st)
      = notebooks st
        ++ [mkNotebook id name now None (Some []) (Some []) (Some []) None] /\
    sources (handleAddNotebook id now name st) = sources st /\
    messages (handleAddNotebook id now name st) = messages st /\
    (exists nb, activeNotebook (handleAddNotebook id now name st) = Some nb /\
                nb_id nb = id) /\
    ((forall n, n ∈ notebooks st -> nb_id n <> id) ->
       activeNotebook (handleAddNotebook id now name st)
       = Some (mkNotebook id name now None (Some []) (Some []) (Some []) None)) /\
    ((forall s, s ∈ sources st -> src_notebookId s <> id) ->
       activeSources (handleAddNotebook id now name st) = []).
Proof.
  intros id now name st.
  set (nb := mkNotebook id name now None (Some []) (Some []) (Some []) None).
  set (st' := handleAddNotebook id now name st).
  assert (Hfind : exists i n,
             list_find (fun n => is_active st' (nb_id n)) (notebooks st') = Some (i, n)).
  { destruct (list_find _ (notebooks st')) as [[i n]|] eqn:E; [eauto|].
    exfalso. apply list_find_None in E.
    rewrite List.Forall_forall in E. apply (E nb).
    - subst st'. cbn. apply in_or_app. right. left. reflexivity.
    - reflexivity. }
  split; [reflexivity|]. split; [reflexivity|]. split; [reflexivity|].
  split; [|split].
  - destruct Hfind as (i & n & E). exists n. unfold activeNotebook. rewrite E.
    split; [reflexivity|]. apply list_find_Some in E as (_ & Hn & _).
    unfold is_active in Hn. cbn in Hn. congruence.
  - intros Hfresh. unfold activeNotebook.
    destruct Hfind as (i & n & E). rewrite E. cbn. f_equal.
    apply list_find_Some in E as (Hl & Hn & _).
    unfold is_active in Hn. cbn in Hn. injection Hn as Hn.
    subst st'. cbn [handleAddNotebook notebooks] in Hl.
    apply lookup_app_Some in Hl as [Hl | [_ Hl]].
    + exfalso. apply (Hfresh n); [eapply list_elem_of_lookup_2, Hl|symmetry; exact Hn].
    + destruct (i - length (notebooks st))%nat; [|discriminate].
      cbn in Hl. injection Hl as <-. reflexivity.
  - intros Hfresh. unfold activeSources. subst st'. cbn [handleAddNotebook sources].
    apply SessionFacts.filter_none.
    apply List.Forall_forall. intros s Hs Ha. unfold is_active in Ha. cbn in Ha.
    injection Ha as Ha. apply (Hfresh s); [apply list_elem_of_In, Hs|symmetry; exact Ha].
Qed.

(** X21. A message sent from a notebook is appended to the thread of
    that notebook and to no other; it shows at the end of the active
    messages when that notebook is the active one, and not at all
    otherwise. *)
Theorem message_joins_its_thread :
  forall (nbId : string) (message : ChatMessage) (st : AppState),
    messages (appendMessage nbId message st) !! nbId
      = Some (default [] (messages st !! nbId) ++ [message]) /\
    (forall other, other <> nbId ->
       messages (appendMessage nbId message st) !! other
       = messages st !! other) /\
    (activeNotebookId st = Some nbId -> nbId <> EmptyString ->
       activeMessages (appendMessage nbId message st)
       = activeMessages st ++ [message]) /\
    (activeNotebookId st <> Some nbId ->
       activeMessages (appendMessage nbId message st) = activeMessages st) /\
    notebooks (appendMessage nbId message st) = notebooks st /\
    sources (appendMessage nbId message st) = sources st.
Proof.
  intros nbId message st. unfold appendMessage.
  split; [cbn; apply lookup_insert_eq|].
  split; [intros other Ho; cbn; apply lookup_insert_ne; congruence|].
  split; [|split; [|split; reflexivity]].
  - intros Ha Hne. unfold activeMessages. cbn [activeNotebookId messages].
    rewrite Ha. destruct nbId; [contradiction|]. cbn [truthy_id].
    rewrite lookup_insert_eq. reflexivity.
  - intros Ha. unfold activeMessages. cbn [activeNotebookId messages].
    destruct (truthy_id (activeNotebookId st)) as [id|] eqn:E; [|reflexivity].
    rewrite lookup_insert_ne; [reflexivity|].
    intros ->. apply Ha.
    destruct (activeNotebookId st) as [[|c x]|]; cbn in E; congruence.
Qed.

Lemma prefix_snoc {A} (l k : list A) : l `prefix_of` l ++ k.
Proof. exists k. reflexivity. Qed.

Lemma grows_refl st : grows st st.
Proof.
  split; [reflexivity|]. split; [reflexivity|].
  intros k thread H. exists thread. split; [exact H|reflexivity].
Qed.

Lemma grows_trans a b c : grows a b -> grows b c -> grows a c.
Proof.
  intros (A1 & A2 & A3) (B1 & B2 & B3).
  split; [etrans; eassumption|]. split; [etrans; eassumption|].
  intros k t Hk. destruct (A3 k t Hk) as (t' & Hk' & Hp).
  destruct (B3 k t' Hk') as (t'' & Hk'' & Hp').
  exists t''. split; [exact Hk''|etrans; eassumption].
Qed.

Lemma threads_kept st :
  forall k thread, messages st !! k = Some thread ->
    exists thread', messages st !! k = Some thread' /\ thread `prefix_of` thread'.
Proof. apply (grows_refl st). Qed.

Lemma grows_apply st e : grows st (apply st e).
Proof.
  destruct e as [id now name|id|id now n|uuid clock results selected|nbId m];
    cbn [apply].
  - split; [apply prefix_snoc|]. split; [reflexivity|]. exact (threads_kept st).
  - exact (grows_refl st).
  - unfold addSource. destruct (truthy_id (activeNotebookId st)); [|apply grows_refl].
    split; [reflexivity|]. split; [apply prefix_snoc|]. exact (threads_kept st).
  - unfold handleImportDiscovery. destruct (activeNotebook st); [|apply grows_refl].
    split; [reflexivity|]. split; [apply prefix_snoc|]. exact (threads_kept st).
  - split; [reflexivity|]. split; [reflexivity|].
    intros k thread Hk. unfold appendMessage. cbn [messages].
    destruct (decide (k = nbId)) as [->|Hne].
    + rewrite lookup_insert_eq, Hk. eexists. split; [reflexivity|apply prefix_snoc].
    + rewrite lookup_insert_ne by congruence. exists thread.
      split; [exact Hk|reflexivity].
Qed.

(** X22. No sequence of the edits of the notebook state other than the
    overview update (add or select a notebook, add a source, import
    discoveries, append a message) removes or alters a notebook, a
    source or a message: the old lists are prefixes of the new ones. *)
Theorem edits_never_delete :
  forall (edits : list Edit) (st : AppState),
    notebooks st `prefix_of` notebooks (fold_left apply edits st) /\
    sources st `prefix_of` sources (fold_left apply edits st) /\
    forall k thread, messages st !! k = Some thread ->
      exists thread',
        messages (fold_left apply edits st) !! k = Some thread' /\
        thread `prefix_of` thread'.
Proof.
  intros edits st. change (grows st (fold_left apply edits st)).
  revert st. induction edits as [|e edits IH]; intros st; [apply grows_refl|].
  cbn [fold_left]. eapply grows_trans; [apply grows_apply|apply IH].
Qed.

Lemma patchOne_id nbId u nb : nb_id (patchOne nbId u nb) = nb_id nb.
Proof. unfold patchOne. destruct (decide _); reflexivity. Qed.




Lemma map_patchOne {B} (f : Notebook -> B) nbId u l :
  (forall nb, f (patchOne nbId u nb) = f nb) ->
  map f (map (patchOne nbId u) l) = map f l.
Proof.
  intros H. rewrite map_map. apply map_ext. exact H.
Qed.



Lemma grows_keeps st st' : grows st st' -> keeps st st'.
Proof.
  intros (H1 & H2 & H3). split; [|split; assumption].
  destruct H1 as [k ->]. rewrite map_app. eexists. reflexivity.
Qed.

Lemma keeps_refl st : keeps st st.
Proof. apply grows_keeps, grows_refl. Qed.

Lemma keeps_trans a b c : keeps a b -> keeps b c -> keeps a c.
Proof.
  intros (A1 & A2 & A3) (B1 & B2 & B3).
  split; [etrans; eassumption|]. split; [etrans; eassumption|].
  intros k t Hk. destruct (A3 k t Hk) as (t' & Hk' & Hp).
  destruct (B3 k t' Hk') as (t'' & Hk'' & Hp').
  exists t''. split; [exact Hk''|etrans; eassumption].
Qed.

Lemma keeps_perform st up : keeps st (perform st up).
Proof.
  destruct up as [e|nbId briefingId title content now u]; cbn [perform].
  - apply grows_keeps, grows_apply.
  - split.
    + cbn [applyOverview notebooks]. rewrite map_patchOne by apply patchOne_id.
      reflexivity.
    + split; [apply prefix_snoc|]. exact (threads_kept st).
Qed.

(** X27. No sequence of state updates of the component, the overview
    update included, removes a notebook, a source or a message: the ids
    of the old notebooks open the ids of the new ones, the old sources
    open the new ones, and every old thread opens the thread of the
    same notebook. *)
Theorem updates_never_delete :
  forall (ups : list Update) (st : AppState),
    map nb_id (notebooks st)
      `prefix_of` map nb_id (notebooks (fold_left perform ups st)) /\
    sources st `prefix_of` sources (fold_left perform ups st) /\
    forall k thread, messages st !! k = Some thread ->
      exists thread',
        messages (fold_left perform ups st) !! k = Some thread' /\
        thread `prefix_of` thread'.
Proof.
  intros ups st. change (keeps st (fold_left perform ups st)).
  revert st. induction ups as [|up ups IH]; intros st; [apply keeps_refl|].
  cbn [fold_left]. eapply keeps_trans; [apply keeps_perform|apply IH].
Qed.

Lemma storage_laws_witness :
  loadState (fun _ => Some emptyState)
            (saveState (fun _ => "{}"%string) emptyState ∅)
  = Some emptyState /\
  saveState (fun _ => "{}"%string) emptyState ∅ !! "other"%string = None.
Proof.
  destruct (storage_laws (fun _ => "{}"%string) (fun _ => Some emptyState)
              ∅ emptyState emptyState) as (_ & _ & _ & Hload & _ & Hkeys).
  split.
  - apply Hload. discriminate.
  - destruct (Hkeys "other"%string) as [-> _]; [discriminate|reflexivity].
Defined.

Lemma import_lands_in_active_notebook_witness :
  sources
    (handleImportDiscovery (fun _ => "id"%string) (fun _ => Fin 0)
       [mkDiscovery "t" "u" "s" "r"] {[0%nat]}
       (handleAddNotebook "nb" (Fin 0) "Notes" emptyState))
  = sources (handleAddNotebook "nb" (Fin 0) "Notes" emptyState)
    ++ importedSources (fun _ => "id"%string) (fun _ => Fin 0)
         [mkDiscovery "t" "u" "s" "r"] {[0%nat]}
         (mkNotebook "nb" "Notes" (Fin 0) None (Some []) (Some []) (Some []) None).
Proof.
  apply (import_lands_in_active_notebook (fun _ => "id"%string) (fun _ => Fin 0)
           [mkDiscovery "t" "u" "s" "r"] {[0%nat]}
           (handleAddNotebook "nb" (Fin 0) "Notes" emptyState)
           (mkNotebook "nb" "Notes" (Fin 0) None (Some []) (Some []) (Some []) None)).
  reflexivity.
Defined.

Lemma new_notebook_becomes_active_witness :
  activeNotebook (handleAddNotebook "nb" (Fin 0) "Notes" emptyState)
  = Some (mkNotebook "nb" "Notes" (Fin 0) None (Some []) (Some []) (Some []) None).
Proof.
  destruct (new_notebook_becomes_active "nb" (Fin 0) "Notes" emptyState)
    as (_ & _ & _ & _ & Hnew & _).
  apply Hnew. intros n Hn. inversion Hn.
Defined.

Lemma message_joins_its_thread_witness :
  activeMessages
    (appendMessage "nb" (mkChat "m1" user "Hi" (Fin 0))
       (handleAddNotebook "nb" (Fin 0) "Notes" emptyState))
  = activeMessages (handleAddNotebook "nb" (Fin 0) "Notes" emptyState)
    ++ [mkChat "m1" user "Hi" (Fin 0)].
Proof.
  destruct (message_joins_its_thread "nb" (mkChat "m1" user "Hi" (Fin 0))
              (handleAddNotebook "nb" (Fin 0) "Notes" emptyState))
    as (_ & _ & Hactive & _).
  apply Hactive; [reflexivity|discriminate].
Defined.

Lemma edits_never_delete_witness :
  sources (handleAddNotebook "nb" (Fin 0) "Notes" emptyState)
  `prefix_of`
  sources (fold_left apply
             [AddSource "s1" (Fin 1) (mkNewSource text_ "T" "C" None);
              SelectNotebook "other"]
             (handleAddNotebook "nb" (Fin 0) "Notes" emptyState)).
Proof.
  apply (edits_never_delete
           [AddSource "s1" (Fin 1) (mkNewSource text_ "T" "C" None);
            SelectNotebook "other"]
           (handleAddNotebook "nb" (Fin 0) "Notes" emptyState)).
Defined.

End VaultFacts.

(* ===================================================================== *)
(** ** Discovery and the podcast script                                   *)
(* ===================================================================== *)

Module DiscoveryFacts.

Import Vault Discovery.

Lemma substring_length (m : nat) : forall s : string,
  (String.length (substring 0 m s) <= m)%nat.
Proof.
  induction m as [|m IH]; intros [|c s]; cbn; try lia.
  specialize (IH s). lia.
Qed.

Lemma or_else_nonempty x d : d <> EmptyString -> or_else x d <> EmptyString.
Proof. intros Hd. destruct x as [[|c s]|]; cbn; congruence. Qed.

Lemma or_else_cases x d :
  (or_else x d = d /\ (x = None \/ x = Some EmptyString)) \/
  (x = Some (or_else x d) /\ or_else x d <> EmptyString).
Proof.
  destruct x as [[|c s]|]; cbn; [left|right|left]; split; auto; discriminate.
Qed.

Lemma snippet_bound (t : option string) :
  (String.length (or_else (substring 0 500 <$> t) "Grounded datastream unit.")
   <= 500)%nat.
Proof.
  destruct t as [t|]; [|cbn; lia].
  cbn [fmap option_fmap option_map]. unfold or_else.
  pose proof (substring_length 500 t) as Hlen.
  destruct (substring 0 500 t); [cbn; lia|exact Hlen].
Qed.

(** X23. Every result of [discoverSources] comes from a grounding chunk
    that has a [web] part with a non-empty [uri], which is its url; its
    title is the chunk's, or ["Knowledge Artifact"] when that is
    missing or empty; title, url and snippet are never empty, the
    snippet is at most 500 characters long, and the relevance is the
    fixed label. *)
Theorem discoverSources_results :
  forall (chunks : list GroundingChunk) (responseText : option string)
         (r : DiscoveryResult),
    r ∈ discoverSources chunks responseText ->
    (exists w, mkChunk (Some w) ∈ chunks /\ web_uri w = Some (dr_url r) /\
               dr_title r = or_else (web_title w) "Knowledge Artifact") /\
    dr_url r <> EmptyString /\
    dr_title r <> EmptyString /\
    dr_snippet r <> EmptyString /\
    (String.length (dr_snippet r) <= 500)%nat /\
    dr_relevance r = "Verified Grounded Source (Recent)".
Proof.
  intros chunks responseText r Hr. unfold discoverSources in Hr.
  apply list_elem_of_filter in Hr as [Hurl Hr].
  apply list_elem_of_fmap in Hr as (chunk & -> & Hc).
  apply list_elem_of_filter in Hc as [[w Hw] Hc].
  destruct chunk as [wo]. cbn in Hw. subst wo. cbn in *.
  split; [|split; [exact Hurl|split; [|split; [|split; [|reflexivity]]]]].
  - exists w. split; [exact Hc|]. split; [|reflexivity].
    destruct (or_else_cases (web_uri w) "") as [[E _]|[E _]]; [contradiction|exact E].
  - apply or_else_nonempty. discriminate.
  - apply or_else_nonempty. discriminate.
  - apply snippet_bound.
Qed.

Lemma urls_filter (l : list DiscoveryResult) :
  map dr_url (filter (fun r => dr_url r <> EmptyString) l)
  = filter (fun u => u <> EmptyString) (map dr_url l).
Proof.
  induction l as [|x l IH]; [reflexivity|].
  cbn [map]. destruct (decide (dr_url x = EmptyString)) as [E|E].
  - rewrite !filter_cons_False by (intros H; apply H, E). exact IH.
  - rewrite !filter_cons_True by exact E. cbn [map]. rewrite IH. reflexivity.
Qed.

Lemma uris_of_chunks (chunks : list GroundingChunk) :
  map (fun chunk => or_else (web chunk ≫= web_uri) "")
      (filter (fun chunk => is_Some (web chunk)) chunks)
  = omap (fun c => (fun w => or_else (web_uri w) "") <$> web c) chunks.
Proof.
  induction chunks as [|[[w|]] chunks IH]; [reflexivity| |].
  - rewrite filter_cons_True by (cbn; eauto). cbn. f_equal. exact IH.
  - rewrite filter_cons_False by (cbn; intros [? ?]; discriminate).
    cbn. exact IH.
Qed.

(** X24. [discoverSources] returns at most one result per chunk, none
    for no chunk, and the urls of the results are the non-empty uris of
    the chunks that have a [web] part, in the order of the chunks. *)
Theorem discoverSources_bounds :
  forall (chunks : list GroundingChunk) (responseText : option string),
    (length (discoverSources chunks responseText) <= length chunks)%nat /\
    discoverSources [] responseText = [] /\
    map dr_url (discoverSources chunks responseText)
    = filter (fun u => u <> EmptyString)
        (omap (fun c => (fun w => or_else (web_uri w) "") <$> web c) chunks).
Proof.
  intros chunks responseText. split; [|split; [reflexivity|]].
  - unfold discoverSources.
    etrans; [apply length_filter|]. rewrite length_map. apply length_filter.
  - unfold discoverSources.
    rewrite urls_filter.
    rewrite map_map. cbn [dr_url]. rewrite uris_of_chunks. reflexivity.
Qed.

Lemma toUpperCase_narrator : toUpperCase "narrator" = "NARRATOR".
Proof. reflexivity. Qed.
Lemma toUpperCase_analyst : toUpperCase "analyst" = "ANALYST".
Proof. reflexivity. Qed.


Lemma discoverSources_results_witness :
  dr_url (mkDiscovery "Knowledge Artifact" "https://a.example" "News"
                      "Verified Grounded Source (Recent)")
  <> EmptyString.
Proof.
  apply (discoverSources_results
           [mkChunk (Some (mkWeb None (Some "https://a.example"%string)));
            mkChunk None]
           (Some "News"%string)).
  apply list_elem_of_In. vm_compute. left. reflexivity.
Defined.


End DiscoveryFacts.
